(** * core-js-101, [src/06-objects-tasks.js]: the CSS selector builder

    A shallow embedding of [ErrorCreator], [CssSelectorCreator] and the
    [cssSelectorBuilder] facade, with the properties of the builder that
    the specification states.

    JavaScript strings are modelled by [string], a sequence of 8-bit code
    units.  An object of class [CssSelectorCreator] is a record of its two
    string fields; a method is a function from the receiver's state to the
    receiver's state after the call together with the completion of the
    call (a normal return or a thrown [Error]).  Object identity, [new] and
    aliasing are modelled by a store of objects addressed by references. *)

From Stdlib Require Import String Ascii Bool List Arith Lia.
From stdpp Require Import gmap strings list.

(* stdpp keeps [simpl] from unfolding [String.append]; the proofs below
   compute with appended literals. *)
#[local] Arguments String.append !s1 s2 : simpl nomatch.

(** ** Regular expressions

    The source validates with four regular expressions and only ever asks
    whether one matches ([RegExp.prototype.test], and [String.prototype.match]
    used as a condition).  The model is a matcher by derivatives for the
    fragment of the syntax the source uses: literal characters, the class
    [\s], concatenation, alternation, [?], [*] and the anchors [^] and [$].
    Groups only capture, and a lazy [*?] only changes which match is
    preferred, so neither changes the answer of [test]. *)

Module Regex.

Inductive regex : Type :=
| Void                      (* matches no string; arises from derivatives only *)
| Eps                       (* matches the empty string *)
| Chr (c : ascii)           (* a literal character *)
| Space                     (* the class \s *)
| Seq (r1 r2 : regex)
| Alt (r1 r2 : regex)
| Star (r : regex).

Definition Opt (r : regex) : regex := Alt r Eps.

(** The characters of [\s] among the 8-bit code units: tab, line feed,
    vertical tab, form feed, carriage return, space and no-break space. *)
Definition is_space (a : ascii) : bool :=
  let n := nat_of_ascii a in
  ((9 <=? n) && (n <=? 13)) || (n =? 32) || (n =? 160).

(** A string taken literally, character by character. *)
Fixpoint lit (s : string) : regex :=
  match s with
  | EmptyString => Eps
  | String c EmptyString => Chr c
  | String c s' => Seq (Chr c) (lit s')
  end.

Fixpoint nullable (r : regex) : bool :=
  match r with
  | Void => false
  | Eps => true
  | Chr _ => false
  | Space => false
  | Seq r1 r2 => nullable r1 && nullable r2
  | Alt r1 r2 => nullable r1 || nullable r2
  | Star _ => true
  end.

(** Concatenation and alternation that absorb [Void] and [Eps]. *)
Definition seq (r1 r2 : regex) : regex :=
  match r1, r2 with
  | Void, _ => Void
  | _, Void => Void
  | Eps, _ => r2
  | _, Eps => r1
  | _, _ => Seq r1 r2
  end.

Definition alt (r1 r2 : regex) : regex :=
  match r1, r2 with
  | Void, _ => r2
  | _, Void => r1
  | _, _ => Alt r1 r2
  end.

(** [deriv a r] matches [s] exactly when [r] matches [a] followed by [s]. *)
Fixpoint deriv (a : ascii) (r : regex) : regex :=
  match r with
  | Void => Void
  | Eps => Void
  | Chr c => if Ascii.eqb a c then Eps else Void
  | Space => if is_space a then Eps else Void
  | Seq r1 r2 =>
      alt (seq (deriv a r1) r2) (if nullable r1 then deriv a r2 else Void)
  | Alt r1 r2 => alt (deriv a r1) (deriv a r2)
  | Star r1 => seq (deriv a r1) (Star r1)
  end.

Fixpoint derivs (s : string) (r : regex) : regex :=
  match s with
  | EmptyString => r
  | String a s' => derivs s' (deriv a r)
  end.

(** [r] matches the whole of [s]. *)
Fixpoint matches (r : regex) (s : string) : bool :=
  match s with
  | EmptyString => nullable r
  | String a s' => matches (deriv a r) s'
  end.

(** [r] matches some prefix of [s]. *)
Fixpoint matches_prefix (r : regex) (s : string) : bool :=
  nullable r ||
  match s with
  | EmptyString => false
  | String a s' => matches_prefix (deriv a r) s'
  end.

(** [p] holds of [s] or of one of its suffixes: the scan of an unanchored
    pattern over the start positions [0 .. length s]. *)
Fixpoint at_some_position (p : string -> bool) (s : string) : bool :=
  p s ||
  match s with
  | EmptyString => false
  | String _ s' => at_some_position p s'
  end.

(** A regular expression object: its pattern, and whether the pattern is
    written between [^] and [$]. *)
Record RegExp : Type := mkRegExp {
  anchoredStart : bool;
  pattern : regex;
  anchoredEnd : bool
}.

(** [re.test(s)] on a regular expression whose [lastIndex] is 0, as it is
    for a literal evaluated anew at each call. *)
Definition test (re : RegExp) (s : string) : bool :=
  let here := if anchoredEnd re then matches (pattern re)
              else matches_prefix (pattern re) in
  if anchoredStart re then here s else at_some_position here s.

(** [new RegExp(source)] for a source without metacharacters, which is what
    the six kind tags are. *)
Definition of_source (source : string) : RegExp :=
  mkRegExp false (lit source) false.

(** The strings a pattern describes: what the matcher is to decide. *)
Inductive lang : regex -> string -> Prop :=
| lang_Eps : lang Eps ""
| lang_Chr (c : ascii) : lang (Chr c) (String c "")
| lang_Space (a : ascii) : is_space a = true -> lang Space (String a "")
| lang_Seq (r1 r2 : regex) (s1 s2 : string) :
    lang r1 s1 -> lang r2 s2 -> lang (Seq r1 r2) (s1 +:+ s2)
| lang_Alt_l (r1 r2 : regex) (s : string) : lang r1 s -> lang (Alt r1 r2) s
| lang_Alt_r (r1 r2 : regex) (s : string) : lang r2 s -> lang (Alt r1 r2) s
| lang_Star_nil (r : regex) : lang (Star r) ""
| lang_Star_app (r : regex) (s1 s2 : string) :
    lang r s1 -> lang (Star r) s2 -> lang (Star r) (s1 +:+ s2).

End Regex.

Import Regex.

(** ** Completions and the error messages of [ErrorCreator] *)

Inductive completion (A : Type) : Type :=
| Normal (a : A)
| Throw (message : string).      (* throw new Error(message) *)
Arguments Normal {A} a.
Arguments Throw {A} message.

Definition dquote : string := String (ascii_of_nat 34) "".

Module ErrorCreator.

Definition combinatorError {A : Type} (allowed : string) : completion A :=
  Throw ("Combinator parsing error! Only " +:+ allowed
         +:+ " combinators are allowed to use").

Definition noDuplicateSelectors {A : Type} : completion A :=
  let message := "Element, id and pseudo-element should not occur more then one time inside the selector" in
  Throw message.

Definition selectorsOrderError {A : Type} : completion A :=
  let message := "Selector parts should be arranged in the following order: element, id, class, attribute, pseudo-class, pseudo-element" in
  Throw message.

End ErrorCreator.

(** ** The class [CssSelectorCreator]

    [selector] is the text built so far and [creationOrder] the
    concatenation of the kind tags recorded by [checkSelectorStructure].
    The third field of the source, [throw], holds an [ErrorCreator], which
    has no state: its methods are the definitions above. *)

Record CssSelectorCreator : Type := mkCssSelectorCreator {
  selector : string;
  creationOrder : string
}.

Module CssSelectorCreator.

(** A method of the class: the receiver before the call gives the receiver
    after it and the completion.  A method of the source that ends in
    [return this] completes with [Normal tt] here; the reference is given
    back by [invoke] below. *)
Definition method (A : Type) : Type :=
  CssSelectorCreator -> CssSelectorCreator * completion A.

Definition bind {A B : Type} (m : method A) (f : A -> method B) : method B :=
  fun this =>
    match m this with
    | (this', Normal a) => f a this'
    | (this', Throw message) => (this', Throw message)
    end.

Declare Scope method_scope.
Delimit Scope method_scope with method.
Bind Scope method_scope with method.
Notation "m ;; n" := (bind m (fun _ => n))
  (at level 100, n at level 200, right associativity) : method_scope.
Local Open Scope method_scope.

Definition constructor : CssSelectorCreator :=
  {| selector := ""; creationOrder := "" |}.

(** [this.selector += text] *)
Definition append_selector (text : string) : method unit :=
  fun this =>
    ({| selector := selector this +:+ text;
        creationOrder := creationOrder this |}, Normal tt).

(** [/element|id|pseudo-element/] *)
Definition singleOccurrence : RegExp :=
  mkRegExp false
    (Alt (lit "element") (Alt (lit "id") (lit "pseudo-element"))) false.

(** [/^(element)?(id)?(class)*?(attr)*?(pseudo-class)*?(pseudo-element)?$/g] *)
Definition validOrderPattern : RegExp :=
  mkRegExp true
    (Seq (Opt (lit "element"))
      (Seq (Opt (lit "id"))
        (Seq (Star (lit "class"))
          (Seq (Star (lit "attr"))
            (Seq (Star (lit "pseudo-class"))
              (Opt (lit "pseudo-element")))))))
    true.

(** [/\s|\+|~|>/] *)
Definition allowedCombinators : RegExp :=
  mkRegExp false (Alt Space (Alt (Chr "+") (Alt (Chr "~") (Chr ">")))) false.

(** [sel.match(/element|id|pseudo-element/)] is used as a condition, which
    is what [test] answers.  The tag is appended to [creationOrder] before
    the order is tested, and stays there when the test throws. *)
Definition checkSelectorStructure (sel : string) : method unit :=
  fun this =>
    if test singleOccurrence sel && test (of_source sel) (creationOrder this)
    then (this, ErrorCreator.noDuplicateSelectors)
    else
      let this := {| selector := selector this;
                     creationOrder := creationOrder this +:+ sel |} in
      if negb (test validOrderPattern (creationOrder this))
      then (this, ErrorCreator.selectorsOrderError)
      else (this, Normal tt).

Definition element (value : string) : method unit :=
  checkSelectorStructure "element" ;; append_selector value.

Definition id (value : string) : method unit :=
  checkSelectorStructure "id" ;; append_selector ("#" +:+ value).

Definition class (value : string) : method unit :=
  checkSelectorStructure "class" ;; append_selector ("." +:+ value).

Definition attr (value : string) : method unit :=
  checkSelectorStructure "attr" ;; append_selector ("[" +:+ value +:+ "]").

Definition pseudoClass (value : string) : method unit :=
  checkSelectorStructure "pseudo-class" ;; append_selector (":" +:+ value).

Definition pseudoElement (value : string) : method unit :=
  checkSelectorStructure "pseudo-element" ;; append_selector ("::" +:+ value).

Definition stringify (this : CssSelectorCreator) : string := selector this.

(** The two selectors are passed as the states their objects have when
    [combine] is called; [stringify] does not change them. *)
Definition combine (selector1 : CssSelectorCreator) (combinator : string)
    (selector2 : CssSelectorCreator) : method unit :=
  fun this =>
    if negb (test allowedCombinators combinator)
    then (this, ErrorCreator.combinatorError (dquote +:+ " " +:+ dquote +:+ ", +, ~, >"))
    else append_selector
           (stringify selector1 +:+ " " +:+ combinator +:+ " " +:+ stringify selector2)
           this.

End CssSelectorCreator.

(** ** Part kinds and calls

    The six part methods differ in the tag they pass to
    [checkSelectorStructure] and in the fragment they append. *)

Inductive kind : Type :=
| Element | Id | Class | Attr | PseudoClass | PseudoElement.

Definition tag (k : kind) : string :=
  match k with
  | Element => "element"
  | Id => "id"
  | Class => "class"
  | Attr => "attr"
  | PseudoClass => "pseudo-class"
  | PseudoElement => "pseudo-element"
  end.

(** The text a part of kind [k] with value [value] is rendered to. *)
Definition fragment (k : kind) (value : string) : string :=
  match k with
  | Element => value
  | Id => "#" +:+ value
  | Class => "." +:+ value
  | Attr => "[" +:+ value +:+ "]"
  | PseudoClass => ":" +:+ value
  | PseudoElement => "::" +:+ value
  end.

(** The method that appends a part of kind [k]. *)
Definition part (k : kind) (value : string) : CssSelectorCreator.method unit :=
  match k with
  | Element => CssSelectorCreator.element value
  | Id => CssSelectorCreator.id value
  | Class => CssSelectorCreator.class value
  | Attr => CssSelectorCreator.attr value
  | PseudoClass => CssSelectorCreator.pseudoClass value
  | PseudoElement => CssSelectorCreator.pseudoElement value
  end.

(** The kinds that may occur once: element, id and pseudo-element. *)
Definition single (k : kind) : bool :=
  match k with
  | Element | Id | PseudoElement => true
  | Class | Attr | PseudoClass => false
  end.

(** The place of a kind in the canonical order. *)
Definition rank (k : kind) : nat :=
  match k with
  | Element => 0
  | Id => 1
  | Class => 2
  | Attr => 3
  | PseudoClass => 4
  | PseudoElement => 5
  end.

(** A call of one of the seven mutating methods on a builder. *)
Inductive call : Type :=
| Part (k : kind) (value : string)
| Combine (selector1 : CssSelectorCreator) (combinator : string)
          (selector2 : CssSelectorCreator).

Definition perform (c : call) : CssSelectorCreator.method unit :=
  match c with
  | Part k value => part k value
  | Combine selector1 combinator selector2 =>
      CssSelectorCreator.combine selector1 combinator selector2
  end.

(** A fluent chain [this.c1(..).c2(..)...]: the first throw ends it. *)
Fixpoint chain (cs : list call) : CssSelectorCreator.method unit :=
  match cs with
  | [] => fun this => (this, Normal tt)
  | c :: cs' => CssSelectorCreator.bind (perform c) (fun _ => chain cs')
  end.

(** The receiver after the calls [cs] were made on it one after the other,
    by a client that goes on after a throw. *)
Definition after (cs : list call) (this : CssSelectorCreator) : CssSelectorCreator :=
  fold_left (fun this c => fst (perform c this)) cs this.

(** ** The canonical order on sequences of kinds

    [canonical_from lo ks]: the kinds [ks] can follow one another when the
    first may have rank [lo] at least; a kind that may occur once raises the
    bound past itself. *)

Definition next (k : kind) : nat :=
  if single k then S (rank k) else rank k.

Fixpoint canonical_from (lo : nat) (ks : list kind) : bool :=
  match ks with
  | [] => true
  | k :: ks' => (lo <=? rank k) && canonical_from (next k) ks'
  end.

Definition canonical (ks : list kind) : bool := canonical_from 0 ks.

(** The sequences [element? id? class* attr* pseudo-class* pseudo-element?]. *)
Definition optional (present : bool) (k : kind) : list kind :=
  if present then [k] else [].

Definition canonical_sequence (e i : bool) (nc na np : nat) (pe : bool) : list kind :=
  optional e Element ++ optional i Id ++ repeat Class nc ++ repeat Attr na
  ++ repeat PseudoClass np ++ optional pe PseudoElement.

(** The tags of a sequence of kinds, concatenated: what [creationOrder]
    holds after these kinds were recorded. *)
Fixpoint tags (ks : list kind) : string :=
  match ks with
  | [] => ""
  | k :: ks' => tag k +:+ tags ks'
  end.

(** The fragments of a sequence of part calls, concatenated. *)
Fixpoint fragments (ps : list (kind * string)) : string :=
  match ps with
  | [] => ""
  | (k, value) :: ps' => fragment k value +:+ fragments ps'
  end.

(** The tag of [k] occurs in the tag of [k']. *)
Definition occurs_in (k k' : kind) : bool :=
  test (of_source (tag k)) (tag k').

(** What is left of [validOrderPattern] once a kind was read and the next
    may have rank [lo] at least. *)
Definition order_suffix (lo : nat) : regex :=
  let pe := Opt (lit "pseudo-element") in
  let pc := Seq (Star (lit "pseudo-class")) pe in
  let at_ := Seq (Star (lit "attr")) pc in
  let cl := Seq (Star (lit "class")) at_ in
  let id_ := Seq (Opt (lit "id")) cl in
  match lo with
  | 0 => Seq (Opt (lit "element")) id_
  | 1 => id_
  | 2 => cl
  | 3 => at_
  | 4 => pc
  | 5 => pe
  | _ => Eps
  end.

(** ** The store, references and the facade [cssSelectorBuilder]

    A reference is a key of the store.  [new CssSelectorCreator()] takes a
    key the store does not hold yet.  A method call through a reference
    reads the receiver, runs the method and writes the receiver back, also
    when the method throws: what it assigned before the throw stays. *)

Definition ref : Type := positive.

Abbreviation store := (gmap ref CssSelectorCreator).

Definition operation (A : Type) : Type := store -> store * completion A.

(** Calling a method on something that is not a builder. *)
Definition TypeError {A : Type} : completion A :=
  Throw "TypeError: not a CssSelectorCreator".

Definition new : operation ref :=
  fun σ =>
    let this := fresh (dom σ) in
    (<[this := CssSelectorCreator.constructor]> σ, Normal this).

Definition and_then {A B : Type} (o : operation A) (f : A -> operation B) : operation B :=
  fun σ =>
    match o σ with
    | (σ', Normal a) => f a σ'
    | (σ', Throw message) => (σ', Throw message)
    end.

(** [return this] as the caller sees it: the reference of the receiver. *)
Definition returning (this : ref) (c : completion unit) : completion ref :=
  match c with
  | Normal _ => Normal this
  | Throw message => Throw message
  end.

(** [this.m(...)] for a method [m] that returns [this]. *)
Definition invoke (m : CssSelectorCreator.method unit) (this : ref) : operation ref :=
  fun σ =>
    match σ !! this with
    | None => (σ, TypeError)
    | Some o => (<[this := fst (m o)]> σ, returning this (snd (m o)))
    end.

(** [this.stringify()] *)
Definition stringify (this : ref) : operation string :=
  fun σ =>
    match σ !! this with
    | None => (σ, TypeError)
    | Some o => (σ, Normal (CssSelectorCreator.stringify o))
    end.

(** A call with references for the selectors that [combine] takes. *)
Inductive request : Type :=
| RPart (k : kind) (value : string)
| RCombine (selector1 : ref) (combinator : string) (selector2 : ref).

(** [this.c(...)]: the arguments of [combine] are read in the store as it
    is when the call is made, and may be the receiver itself.  A reference
    the store does not hold stands for no object; JavaScript has no such
    reference, and the call is refused whatever the combinator. *)
Definition send (c : request) (this : ref) : operation ref :=
  match c with
  | RPart k value => invoke (part k value) this
  | RCombine selector1 combinator selector2 =>
      fun σ =>
        match σ !! selector1, σ !! selector2 with
        | Some o1, Some o2 =>
            invoke (CssSelectorCreator.combine o1 combinator o2) this σ
        | _, _ => (σ, TypeError)
        end
  end.

(** The store after the calls [cs] were made on [this] one after the
    other, whatever their completions. *)
Definition sent (cs : list request) (this : ref) (σ : store) : store :=
  fold_left (fun σ c => fst (send c this σ)) cs σ.

Module cssSelectorBuilder.

Definition element (value : string) : operation ref :=
  and_then new (invoke (CssSelectorCreator.element value)).

Definition id (value : string) : operation ref :=
  and_then new (invoke (CssSelectorCreator.id value)).

Definition class (value : string) : operation ref :=
  and_then new (invoke (CssSelectorCreator.class value)).

Definition attr (value : string) : operation ref :=
  and_then new (invoke (CssSelectorCreator.attr value)).

Definition pseudoClass (value : string) : operation ref :=
  and_then new (invoke (CssSelectorCreator.pseudoClass value)).

Definition pseudoElement (value : string) : operation ref :=
  and_then new (invoke (CssSelectorCreator.pseudoElement value)).

Definition combine (selector1 : ref) (combinator : string) (selector2 : ref) : operation ref :=
  and_then new (send (RCombine selector1 combinator selector2)).

End cssSelectorBuilder.

(** A top-level call on the facade. *)
Definition facade (c : request) : operation ref :=
  match c with
  | RPart Element value => cssSelectorBuilder.element value
  | RPart Id value => cssSelectorBuilder.id value
  | RPart Class value => cssSelectorBuilder.class value
  | RPart Attr value => cssSelectorBuilder.attr value
  | RPart PseudoClass value => cssSelectorBuilder.pseudoClass value
  | RPart PseudoElement value => cssSelectorBuilder.pseudoElement value
  | RCombine selector1 combinator selector2 =>
      cssSelectorBuilder.combine selector1 combinator selector2
  end.

(** [cssSelectorBuilder.c1(..).c2(..)...]: the first call goes to the
    facade, the others to the builder it returned. *)
Fixpoint chained (cs : list request) (this : ref) : operation ref :=
  match cs with
  | [] => fun σ => (σ, Normal this)
  | c :: cs' => and_then (send c this) (chained cs')
  end.

Definition build (c : request) (cs : list request) : operation ref :=
  and_then (facade c) (chained cs).

(** ** Auxiliary notions for the proofs *)

(** A pattern that matches nothing more: no string, or the empty one. *)
Definition is_done (r : regex) : bool :=
  match r with
  | Void | Eps => true
  | _ => false
  end.

(** No match of [r] that starts inside [t] is still open where [t] ends. *)
Fixpoint closed_within (r : regex) (t : string) : bool :=
  match t with
  | EmptyString => true
  | String _ t' => is_done (derivs t r) && closed_within r t'
  end.

(** The kinds of the part calls among [cs]. *)
Fixpoint called (cs : list call) : list kind :=
  match cs with
  | [] => []
  | Part k _ :: cs' => k :: called cs'
  | Combine _ _ _ :: cs' => called cs'
  end.

(** The receiver once [checkSelectorStructure] recorded the kind [k]. *)
Definition recorded (k : kind) (this : CssSelectorCreator) : CssSelectorCreator :=
  {| selector := selector this;
     creationOrder := creationOrder this +:+ tag k |}.

(** The receiver once a part of kind [k] was appended. *)
Definition appended (k : kind) (value : string) (this : CssSelectorCreator) : CssSelectorCreator :=
  {| selector := selector this +:+ fragment k value;
     creationOrder := creationOrder this +:+ tag k |}.

Definition part_call (p : kind * string) : call := Part (fst p) (snd p).

Definition part_request (p : kind * string) : request := RPart (fst p) (snd p).

(** The call a request stands for: its references read in the store. *)
Definition resolve (σ : store) (c : request) : option call :=
  match c with
  | RPart k value => Some (Part k value)
  | RCombine selector1 combinator selector2 =>
      match σ !! selector1, σ !! selector2 with
      | Some o1, Some o2 => Some (Combine o1 combinator o2)
      | _, _ => None
      end
  end.

(** The characters [allowedCombinators] looks for, and the strings that
    hold one. *)
Definition combinator_character (a : ascii) : bool :=
  is_space a || Ascii.eqb a "+" || Ascii.eqb a "~" || Ascii.eqb a ">".

Fixpoint holds_combinator_character (s : string) : bool :=
  match s with
  | EmptyString => false
  | String a s' => combinator_character a || holds_combinator_character s'
  end.

(** ** Notions for the properties of whole chains *)

(** The check for a duplicate, read on the recorded kinds: a kind that may
    occur once was recorded, or element is called and pseudo-element was
    recorded. *)
Definition seen (k : kind) (ks : list kind) : bool :=
  match k with
  | Element =>
      existsb (fun k' => match k' with
                         | Element | PseudoElement => true
                         | _ => false
                         end) ks
  | Id => existsb (fun k' => match k' with Id => true | _ => false end) ks
  | PseudoElement =>
      existsb (fun k' => match k' with PseudoElement => true | _ => false end) ks
  | Class | Attr | PseudoClass => false
  end.

(** The text a call appends when it completes normally. *)
Definition render (c : call) : string :=
  match c with
  | Part k value => fragment k value
  | Combine selector1 combinator selector2 =>
      selector selector1 +:+ " " +:+ combinator +:+ " " +:+ selector selector2
  end.

Fixpoint rendered (cs : list call) : string :=
  match cs with
  | [] => ""
  | c :: cs' => render c +:+ rendered cs'
  end.

(** Every combinator among the calls holds a character that
    [allowedCombinators] finds. *)
Definition combinators_allowed (cs : list call) : bool :=
  forallb (fun c => match c with
                    | Part _ _ => true
                    | Combine _ combinator _ => holds_combinator_character combinator
                    end) cs.

(** * Properties *)

(** ** Strings *)

Lemma append_nil_r (s : string) : s +:+ "" = s.
Proof. induction s as [|a s IH]; simpl; [reflexivity | now rewrite IH]. Qed.

Lemma append_assoc (s t u : string) : (s +:+ t) +:+ u = s +:+ (t +:+ u).
Proof. induction s as [|a s IH]; simpl; [reflexivity | now rewrite IH]. Qed.

Lemma tags_app (ks ks' : list kind) : tags (ks ++ ks') = tags ks +:+ tags ks'.
Proof.
  induction ks as [|k ks IH]; simpl; [reflexivity |].
  now rewrite IH, append_assoc.
Qed.

(** The tags are a prefix code: a sequence of kinds is read back from its
    tags. *)
Lemma tags_inj (ks ks' : list kind) : tags ks = tags ks' -> ks = ks'.
Proof.
  revert ks'. induction ks as [|k ks IH]; intros [|k' ks'] H; try reflexivity.
  - destruct k'; discriminate H.
  - destruct k; discriminate H.
  - assert (k = k' /\ tags ks = tags ks') as [-> Ht].
    { destruct k, k'; simpl in H; try discriminate H;
        (split; [reflexivity | now injection H]). }
    f_equal. now apply IH.
Qed.

Lemma tags_snoc (ks : list kind) (k : kind) : tags (ks ++ [k]) = tags ks +:+ tag k.
Proof.
  rewrite tags_app. change (tags [k]) with (tag k +:+ "").
  now rewrite append_nil_r.
Qed.

(** ** The matcher *)

Lemma matches_Void (s : string) : matches Void s = false.
Proof. induction s as [|a s IH]; simpl; [reflexivity | exact IH]. Qed.

Lemma matches_prefix_Void (s : string) : matches_prefix Void s = false.
Proof. induction s as [|a s IH]; simpl; [reflexivity | exact IH]. Qed.

Lemma matches_app (t s : string) :
  forall r, matches r (t +:+ s) = matches (derivs t r) s.
Proof. induction t as [|a t IH]; intros r; simpl; [reflexivity | apply IH]. Qed.

(** A match of a prefix stays one when the string is extended. *)
Lemma matches_prefix_extend (s t : string) :
  forall r, matches_prefix r s = true -> matches_prefix r (s +:+ t) = true.
Proof.
  induction s as [|a s IH]; intros r H; simpl in *.
  - rewrite orb_false_r in H. destruct t; simpl; now rewrite H.
  - apply orb_true_iff in H as [H | H]; [now rewrite H |].
    rewrite (IH _ H). apply orb_true_r.
Qed.

(** Reading [t] first: either a match ends inside [t], or what is left of
    the pattern after [t] goes on in [s]. *)
Lemma matches_prefix_app (t s : string) :
  forall r,
    matches_prefix r (t +:+ s)
    = matches_prefix r t || matches_prefix (derivs t r) s.
Proof.
  induction t as [|a t IH]; intros r; simpl.
  - destruct s; simpl; destruct (nullable r); reflexivity.
  - rewrite IH. now rewrite orb_assoc.
Qed.

Lemma at_some_position_extend (p : string -> bool) (s t : string) :
  (forall u, p u = true -> p (u +:+ t) = true) ->
  at_some_position p s = true -> at_some_position p (s +:+ t) = true.
Proof.
  intros Hp. induction s as [|a s IH]; intros H; simpl in *.
  - rewrite orb_false_r in H. apply Hp in H. simpl in H.
    destruct t; simpl; now rewrite H.
  - apply orb_true_iff in H as [H | H].
    + apply Hp in H. simpl in H. now rewrite H.
    + rewrite (IH H). apply orb_true_r.
Qed.

Lemma at_some_position_after (p : string -> bool) (t s : string) :
  at_some_position p s = true -> at_some_position p (t +:+ s) = true.
Proof.
  intros H. induction t as [|a t IH]; simpl; [exact H |].
  rewrite IH. apply orb_true_r.
Qed.

(** An unanchored pattern found in a string is found in every string
    that has it inside. *)
Lemma test_unanchored_inside (r : regex) (s t u : string) :
  test (mkRegExp false r false) s = true ->
  test (mkRegExp false r false) (t +:+ s +:+ u) = true.
Proof.
  unfold test; simpl. intros H.
  apply at_some_position_after, at_some_position_extend; [| exact H].
  intros v. apply matches_prefix_extend.
Qed.

Lemma matches_prefix_whole (t : string) :
  forall r, nullable (derivs t r) = true -> matches_prefix r t = true.
Proof.
  induction t as [|a t IH]; intros r H; simpl in *.
  - now rewrite H.
  - rewrite (IH _ H). apply orb_true_r.
Qed.

(** Past the end of [t], a pattern that is done adds no match. *)
Lemma matches_prefix_done (r : regex) (t s : string) :
  is_done (derivs t r) = true ->
  matches_prefix r (t +:+ s) = matches_prefix r t.
Proof.
  intros H. rewrite matches_prefix_app.
  destruct (derivs t r) eqn:E; try discriminate H.
  - now rewrite matches_prefix_Void, orb_false_r.
  - rewrite (matches_prefix_whole t r); [reflexivity | now rewrite E].
Qed.

Lemma test_unanchored_nil (r : regex) (s : string) :
  test (mkRegExp false r false) "" = true ->
  test (mkRegExp false r false) s = true.
Proof.
  unfold test; simpl. rewrite !orb_false_r. intros H.
  destruct s; simpl; now rewrite H.
Qed.

(** When no match can straddle the end of [t], a search in [t +:+ s] is a
    search in [t] or a search in [s]. *)
Lemma test_unanchored_app (r : regex) (t s : string) :
  closed_within r t = true ->
  test (mkRegExp false r false) (t +:+ s)
  = test (mkRegExp false r false) t || test (mkRegExp false r false) s.
Proof.
  induction t as [|a t IH]; intros H.
  - change ("" +:+ s) with s.
    destruct (test (mkRegExp false r false) "") eqn:E; [| reflexivity].
    now rewrite (test_unanchored_nil _ s E).
  - simpl in H. apply andb_true_iff in H as [Hv Ht].
    specialize (IH Ht). unfold test in *; simpl in *.
    rewrite IH.
    pose proof (matches_prefix_done r (String a t) s Hv) as Hs.
    simpl in Hs. rewrite Hs. now rewrite !orb_assoc.
Qed.

(** *** The matcher decides the language of the pattern *)

Lemma append_eq_nil (s t : string) : s +:+ t = "" -> s = "" /\ t = "".
Proof. destruct s; simpl; [auto | discriminate]. Qed.

Lemma nullable_lang (r : regex) : nullable r = true <-> lang r "".
Proof.
  split.
  - induction r; simpl; intros H; try discriminate H.
    + constructor.
    + apply andb_true_iff in H as [H1 H2].
      change "" with ("" +:+ ""). constructor; auto.
    + apply orb_true_iff in H as [H | H]; [apply lang_Alt_l | apply lang_Alt_r]; auto.
    + constructor.
  - intros H. remember "" as s eqn:Es. induction H; simpl; try discriminate Es; auto.
    + apply append_eq_nil in Es as [-> ->]. now rewrite IHlang1, IHlang2.
    + now rewrite IHlang.
    + rewrite IHlang; auto. apply orb_true_r.
Qed.

Lemma lang_seq (r1 r2 : regex) (s : string) : lang (seq r1 r2) s <-> lang (Seq r1 r2) s.
Proof.
  assert (Hvoid : forall s, ~ lang Void s) by (intros s' H; inversion H).
  assert (Heps : forall s, lang Eps s -> s = "") by (intros s' H; now inversion H).
  split.
  - intros H.
    destruct r1; simpl in H; try (now apply Hvoid in H);
      destruct r2; simpl in H; try (now apply Hvoid in H); try exact H;
      try (rewrite <- (append_nil_r s); constructor; [exact H | constructor]);
      try (change s with ("" +:+ s); constructor; [constructor | exact H]).
  - intros H. inversion H as [| | | ? ? s1 s2 H1 H2 | | | |]; subst.
    destruct r1; simpl; try (now apply Hvoid in H1);
      destruct r2; simpl; try (now apply Hvoid in H2); try exact H;
      try (apply Heps in H2; subst; now rewrite append_nil_r);
      try (apply Heps in H1; subst; exact H2).
Qed.

Lemma lang_alt (r1 r2 : regex) (s : string) : lang (alt r1 r2) s <-> lang (Alt r1 r2) s.
Proof.
  assert (Hvoid : forall s, ~ lang Void s) by (intros s' H; inversion H).
  split.
  - intros H.
    destruct r1; simpl in H; try (now apply lang_Alt_r);
      destruct r2; simpl in H; try (now apply lang_Alt_l); exact H.
  - intros H. inversion H; subst.
    + destruct r1; simpl; try (now apply Hvoid in H3);
        destruct r2; simpl; try exact H; try exact H3.
    + destruct r1; simpl; try exact H3;
        destruct r2; simpl; try (now apply Hvoid in H3); try exact H.
Qed.

Lemma lang_Star_inv (r' : regex) (s' : string) :
  lang r' s' ->
  forall (r : regex) (a : ascii) (t : string),
    r' = Star r -> s' = String a t ->
    exists t1 t2, t = t1 +:+ t2 /\ lang r (String a t1) /\ lang (Star r) t2.
Proof.
  induction 1 as [| | | | | | | r0 s1 s2 H1 _ H2 IH2];
    intros r' a' t' Er Es; try discriminate Er.
  - discriminate Es.
  - injection Er as ->. destruct s1 as [|b s1].
    + simpl in Es. now apply IH2.
    + simpl in Es. injection Es as -> <-. now exists s1, s2.
Qed.

Lemma lang_Star_cons (r : regex) (a : ascii) (s : string) :
  lang (Star r) (String a s) ->
  exists s1 s2, s = s1 +:+ s2 /\ lang r (String a s1) /\ lang (Star r) s2.
Proof. intros H. now apply (lang_Star_inv _ _ H r a s). Qed.

Lemma lang_deriv (r : regex) :
  forall (a : ascii) (s : string), lang (deriv a r) s <-> lang r (String a s).
Proof.
  induction r as [| | c | | r1 IH1 r2 IH2 | r1 IH1 r2 IH2 | r IH]; intros a s; simpl.
  - split; intros H; inversion H.
  - split; intros H; inversion H.
  - destruct (Ascii.eqb a c) eqn:E.
    + apply Ascii.eqb_eq in E as ->. split; intros H; inversion H; subst; constructor.
    + split; intros H; inversion H; subst. now rewrite Ascii.eqb_refl in E.
  - destruct (is_space a) eqn:E.
    + split; intros H; inversion H; subst; now constructor.
    + split; intros H; inversion H; subst. congruence.
  - rewrite lang_alt. split.
    + intros H. inversion H; subst.
      * apply lang_seq in H3. inversion H3; subst.
        apply IH1 in H2. change (String a (s1 +:+ s2)) with (String a s1 +:+ s2).
        now constructor.
      * destruct (nullable r1) eqn:E; [| inversion H3].
        apply IH2 in H3. change (String a s) with ("" +:+ String a s).
        constructor; [now apply nullable_lang | exact H3].
    + intros H. inversion H as [| | | ? ? s1 s2 H1 H2 Hr Hs | | | |]; subst.
      destruct s1 as [|b s1].
      * simpl in Hs. subst s2. apply lang_Alt_r.
        apply nullable_lang in H1. rewrite H1. now apply IH2.
      * simpl in Hs. injection Hs as -> <-. apply lang_Alt_l, lang_seq.
        constructor; [now apply IH1 | exact H2].
  - rewrite lang_alt. split; intros H; inversion H; subst.
    + apply lang_Alt_l. now apply IH1.
    + apply lang_Alt_r. now apply IH2.
    + apply lang_Alt_l. now apply IH1.
    + apply lang_Alt_r. now apply IH2.
  - rewrite lang_seq. split.
    + intros H. inversion H; subst. apply IH in H2.
      change (String a (s1 +:+ s2)) with (String a s1 +:+ s2). now constructor.
    + intros H. apply lang_Star_cons in H as [s1 [s2 [-> [H1 H2]]]].
      constructor; [now apply IH | exact H2].
Qed.

Lemma matches_lang (s : string) : forall r, matches r s = true <-> lang r s.
Proof.
  induction s as [|a s IH]; intros r; simpl.
  - apply nullable_lang.
  - rewrite IH. apply lang_deriv.
Qed.

Lemma matches_prefix_cons (r : regex) (a : ascii) (s : string) :
  matches_prefix r (String a s) = nullable r || matches_prefix (deriv a r) s.
Proof. reflexivity. Qed.

Lemma matches_prefix_lang (s : string) :
  forall r, matches_prefix r s = true <-> exists s1 s2, s = s1 +:+ s2 /\ lang r s1.
Proof.
  induction s as [|a s IH]; intros r.
  - simpl. rewrite orb_false_r, nullable_lang. split.
    + intros H. now exists "", "".
    + intros [s1 [s2 [E H]]]. symmetry in E.
      apply append_eq_nil in E as [-> _]. exact H.
  - rewrite matches_prefix_cons, orb_true_iff, nullable_lang. split.
    + intros [H | H].
      * now exists "", (String a s).
      * apply IH in H as [s1 [s2 [-> H]]]. exists (String a s1), s2.
        split; [reflexivity | now apply lang_deriv].
    + intros [s1 [s2 [E H]]]. destruct s1 as [|b s1].
      * now left.
      * simpl in E. injection E as <- ->. right. apply IH. exists s1, s2.
        split; [reflexivity | now apply lang_deriv].
Qed.

Lemma at_some_position_cons (p : string -> bool) (a : ascii) (s : string) :
  at_some_position p (String a s) = p (String a s) || at_some_position p s.
Proof. reflexivity. Qed.

(** [test] finds what the pattern describes: for an unanchored pattern, a
    part of the string that is in the language; between [^] and [$], the
    whole string. *)
Lemma test_unanchored_lang (r : regex) (s : string) :
  test (mkRegExp false r false) s = true
  <-> exists s0 s1 s2, s = s0 +:+ s1 +:+ s2 /\ lang r s1.
Proof.
  unfold test. cbn [anchoredStart anchoredEnd pattern].
  induction s as [|a s IH].
  - simpl. rewrite !orb_false_r, nullable_lang. split.
    + intros H. now exists "", "", "".
    + intros [s0 [s1 [s2 [E H]]]]. symmetry in E.
      apply append_eq_nil in E as [-> E].
      apply append_eq_nil in E as [-> _]. exact H.
  - rewrite at_some_position_cons, orb_true_iff. split.
    + intros [H | H].
      * apply matches_prefix_lang in H as [s1 [s2 [E H]]]. now exists "", s1, s2.
      * apply IH in H as [s0 [s1 [s2 [-> H]]]]. now exists (String a s0), s1, s2.
    + intros [s0 [s1 [s2 [E H]]]]. destruct s0 as [|b s0].
      * left. apply matches_prefix_lang. now exists s1, s2.
      * simpl in E. injection E as <- ->. right. apply IH. now exists s0, s1, s2.
Qed.

Lemma test_anchored_lang (r : regex) (s : string) :
  test (mkRegExp true r true) s = true <-> lang r s.
Proof. apply matches_lang. Qed.

(** ** The patterns of [checkSelectorStructure] on recorded tags *)

Lemma test_tag_app (k k' : kind) (s : string) :
  test (of_source (tag k)) (tag k' +:+ s)
  = occurs_in k k' || test (of_source (tag k)) s.
Proof.
  unfold occurs_in, of_source. apply test_unanchored_app.
  destruct k, k'; vm_compute; reflexivity.
Qed.

Lemma test_tag_tags (k : kind) (ks : list kind) :
  test (of_source (tag k)) (tags ks) = existsb (occurs_in k) ks.
Proof.
  induction ks as [|k' ks IH]; simpl.
  - destruct k; reflexivity.
  - now rewrite test_tag_app, IH.
Qed.

Lemma occurs_in_spec (k k' : kind) :
  occurs_in k k' = true <->
  k = k' \/ (k = Element /\ k' = PseudoElement)
  \/ (k = Class /\ k' = PseudoClass).
Proof.
  split.
  - destruct k, k'; intros H; try (vm_compute in H; discriminate H);
      first [now left | now (right; left) | now (right; right)].
  - intros [-> | [[-> ->] | [-> ->]]]; [destruct k' | |]; reflexivity.
Qed.

Lemma derivs_order_suffix (lo : nat) (k : kind) :
  derivs (tag k) (order_suffix lo)
  = if lo <=? rank k then order_suffix (next k) else Void.
Proof.
  do 7 (destruct lo as [|lo]; [destruct k; vm_compute; reflexivity |]).
  destruct k; vm_compute; reflexivity.
Qed.

Lemma nullable_order_suffix (lo : nat) : nullable (order_suffix lo) = true.
Proof. do 7 (destruct lo as [|lo]; [reflexivity |]). reflexivity. Qed.

Lemma matches_order_suffix (ks : list kind) :
  forall lo, matches (order_suffix lo) (tags ks) = canonical_from lo ks.
Proof.
  induction ks as [|k ks IH]; intros lo; simpl.
  - apply nullable_order_suffix.
  - rewrite matches_app, derivs_order_suffix.
    destruct (lo <=? rank k); simpl; [apply IH | apply matches_Void].
Qed.

Lemma test_validOrderPattern (ks : list kind) :
  test CssSelectorCreator.validOrderPattern (tags ks) = canonical ks.
Proof. apply (matches_order_suffix ks 0). Qed.

Lemma test_singleOccurrence (k : kind) :
  test CssSelectorCreator.singleOccurrence (tag k) = single k.
Proof. destruct k; reflexivity. Qed.

(** ** The part methods *)

Lemma part_bind (k : kind) (value : string) :
  part k value
  = CssSelectorCreator.bind (CssSelectorCreator.checkSelectorStructure (tag k))
      (fun _ => CssSelectorCreator.append_selector (fragment k value)).
Proof. destruct k; reflexivity. Qed.

(** The three ways a part call ends. *)
Lemma part_eq (k : kind) (value : string) (this : CssSelectorCreator) :
  part k value this
  = if single k && test (of_source (tag k)) (creationOrder this)
    then (this, ErrorCreator.noDuplicateSelectors)
    else if test CssSelectorCreator.validOrderPattern (creationOrder this +:+ tag k)
         then (appended k value this, Normal tt)
         else (recorded k this, ErrorCreator.selectorsOrderError).
Proof.
  rewrite part_bind.
  unfold CssSelectorCreator.bind, CssSelectorCreator.checkSelectorStructure.
  rewrite test_singleOccurrence.
  destruct (single k && test (of_source (tag k)) (creationOrder this));
    [reflexivity |].
  cbn [creationOrder].
  destruct (test CssSelectorCreator.validOrderPattern (creationOrder this +:+ tag k));
    reflexivity.
Qed.

(** ** The canonical order *)

Lemma rank_le_next (k : kind) : rank k <= next k.
Proof. destruct k; unfold next; simpl; lia. Qed.

Lemma canonical_from_weaken (ks : list kind) (lo lo' : nat) :
  lo <= lo' -> canonical_from lo' ks = true -> canonical_from lo ks = true.
Proof.
  destruct ks as [|k ks]; simpl; [reflexivity |].
  intros Hle H. apply andb_true_iff in H as [H1 H2].
  apply Nat.leb_le in H1. rewrite H2, andb_true_r. apply Nat.leb_le. lia.
Qed.

(** Every kind of a canonical sequence has the bound's rank at least. *)
Lemma canonical_from_bound (ks : list kind) :
  forall lo k, canonical_from lo ks = true -> In k ks -> lo <= rank k.
Proof.
  induction ks as [|k0 ks IH]; intros lo k H Hin; [destruct Hin |].
  simpl in H. apply andb_true_iff in H as [H1 H2]. apply Nat.leb_le in H1.
  destruct Hin as [<- | Hin]; [exact H1 |].
  specialize (IH _ _ H2 Hin). pose proof (rank_le_next k0). lia.
Qed.

Lemma canonical_from_prefix (ks ks' : list kind) :
  forall lo, canonical_from lo (ks ++ ks') = true -> canonical_from lo ks = true.
Proof.
  induction ks as [|k ks IH]; intros lo H; [reflexivity |].
  simpl in *. apply andb_true_iff in H as [H1 H2].
  now rewrite H1, (IH _ H2).
Qed.

(** In a canonical sequence, a kind is past every kind before it. *)
Lemma canonical_from_before (ks ks' : list kind) (k : kind) :
  forall lo k',
    canonical_from lo (ks ++ k :: ks') = true -> In k' ks -> next k' <= rank k.
Proof.
  induction ks as [|k0 ks IH]; intros lo k' H Hin; [destruct Hin |].
  simpl in H. apply andb_true_iff in H as [_ H2].
  destruct Hin as [<- | Hin]; [| exact (IH _ _ H2 Hin)].
  apply (canonical_from_bound _ _ _ H2). apply in_or_app. right. now left.
Qed.

Lemma canonical_from_repeat (k : kind) (n : nat) (ks : list kind) (lo : nat) :
  single k = false -> lo <= rank k ->
  canonical_from (rank k) ks = true ->
  canonical_from lo (repeat k n ++ ks) = true.
Proof.
  intros Hk. revert lo. induction n as [|n IH]; intros lo Hlo H; simpl.
  - now apply (canonical_from_weaken ks lo (rank k)).
  - apply andb_true_iff. split; [now apply Nat.leb_le |].
    apply IH; [| exact H]. unfold next. now rewrite Hk.
Qed.

Lemma canonical_sequence_canonical (e i : bool) (nc na np : nat) (pe : bool) :
  canonical (canonical_sequence e i nc na np pe) = true.
Proof.
  assert (Htail : canonical_from 2
            (repeat Class nc ++ repeat Attr na ++ repeat PseudoClass np
             ++ optional pe PseudoElement) = true).
  { apply canonical_from_repeat; [reflexivity | simpl; lia |].
    apply canonical_from_repeat; [reflexivity | simpl; lia |].
    apply canonical_from_repeat; [reflexivity | simpl; lia |].
    destruct pe; reflexivity. }
  unfold canonical, canonical_sequence.
  destruct e, i; cbn [optional app canonical_from]; unfold next;
    cbn [single rank Nat.leb andb];
    (apply (canonical_from_weaken _ _ 2); [lia | exact Htail]).
Qed.

(** A single kind that can be appended canonically was not recorded. *)
Lemma canonical_not_recorded (ks : list kind) (k : kind) :
  canonical (ks ++ [k]) = true ->
  single k && test (of_source (tag k)) (tags ks) = false.
Proof.
  intros H. destruct (single k) eqn:Hk; [simpl | reflexivity].
  rewrite test_tag_tags. apply not_true_is_false. intros Hex.
  apply existsb_exists in Hex as [k' [Hin Hocc]].
  pose proof (canonical_from_before ks [] k 0 k' H Hin) as Hle.
  apply occurs_in_spec in Hocc as [<- | [[-> ->] | [-> ->]]].
  - unfold next in Hle. rewrite Hk in Hle. lia.
  - unfold next in Hle. simpl in Hle. lia.
  - discriminate Hk.
Qed.

(** A part call that keeps the recorded kinds canonical succeeds. *)
Lemma part_canonical (k : kind) (value : string) (this : CssSelectorCreator)
    (ks : list kind) :
  creationOrder this = tags ks ->
  canonical (ks ++ [k]) = true ->
  part k value this = (appended k value this, Normal tt).
Proof.
  intros Hco H. rewrite part_eq, Hco, (canonical_not_recorded ks k H).
  now rewrite <- tags_snoc, test_validOrderPattern, H.
Qed.

Lemma chain_canonical (ps : list (kind * string)) :
  forall (this : CssSelectorCreator) (ks : list kind),
    creationOrder this = tags ks ->
    canonical (ks ++ map fst ps) = true ->
    chain (map part_call ps) this
    = ({| selector := selector this +:+ fragments ps;
          creationOrder := tags (ks ++ map fst ps) |}, Normal tt).
Proof.
  induction ps as [|[k value] ps IH]; intros this ks Hco H.
  - simpl. rewrite app_nil_r, append_nil_r, <- Hco. now destruct this.
  - change (map fst ((k, value) :: ps)) with ([k] ++ map fst ps) in *.
    rewrite app_assoc in H |- *.
    cbn [chain map part_call perform fst snd]. unfold CssSelectorCreator.bind.
    rewrite (part_canonical k value this ks Hco);
      [| exact (canonical_from_prefix _ _ _ H)].
    rewrite (IH (appended k value this) (ks ++ [k])); [| | exact H].
    + cbn [appended selector fragments]. now rewrite append_assoc.
    + cbn [appended creationOrder]. now rewrite tags_snoc, Hco.
Qed.

(** ** Calls through references *)

Lemma invoke_eq (m : CssSelectorCreator.method unit) (this : ref) (σ : store)
    (o : CssSelectorCreator) :
  σ !! this = Some o ->
  invoke m this σ = (<[this := fst (m o)]> σ, returning this (snd (m o))).
Proof. intros H. unfold invoke. now rewrite H. Qed.

(** A call through a reference is the call on the object it refers to. *)
Lemma send_eq (c : request) (this : ref) (σ : store) (o : CssSelectorCreator)
    (c' : call) :
  σ !! this = Some o -> resolve σ c = Some c' ->
  send c this σ
  = (<[this := fst (perform c' o)]> σ, returning this (snd (perform c' o))).
Proof.
  intros Hthis Hc. destruct c as [k value | a comb b]; simpl in *.
  - injection Hc as <-. now apply invoke_eq.
  - destruct (σ !! a) as [oa|]; [| discriminate Hc].
    destruct (σ !! b) as [ob|]; [| discriminate Hc].
    injection Hc as <-. now apply invoke_eq.
Qed.

(** A call changes no object but its receiver. *)
Lemma send_other (c : request) (this other : ref) (σ : store) :
  other <> this -> fst (send c this σ) !! other = σ !! other.
Proof.
  intros Hne.
  assert (Hinv : forall m, fst (invoke m this σ) !! other = σ !! other).
  { intros m. unfold invoke. destruct (σ !! this); simpl; [| reflexivity].
    now apply lookup_insert_ne. }
  destruct c as [k value | a comb b]; simpl; [apply Hinv |].
  destruct (σ !! a); [| reflexivity]. destruct (σ !! b); [| reflexivity].
  apply Hinv.
Qed.

Lemma sent_other (cs : list request) (this other : ref) :
  other <> this -> forall σ : store, sent cs this σ !! other = σ !! other.
Proof.
  intros Hne. induction cs as [|c cs IH]; intros σ; [reflexivity |].
  change (sent (c :: cs) this σ) with (sent cs this (fst (send c this σ))).
  rewrite IH. now apply send_other.
Qed.

(** A call allocates nothing and frees nothing. *)
Lemma send_dom (c : request) (this : ref) (σ : store) :
  dom (fst (send c this σ)) = dom σ.
Proof.
  assert (Hinv : forall m, dom (fst (invoke m this σ)) = dom σ).
  { intros m. unfold invoke. destruct (σ !! this) eqn:E; simpl; [| reflexivity].
    rewrite dom_insert_L. apply elem_of_dom_2 in E.
    now apply subseteq_union_1_L, singleton_subseteq_l. }
  destruct c as [k value | a comb b]; simpl; [apply Hinv |].
  destruct (σ !! a); [| reflexivity]. destruct (σ !! b); [| reflexivity].
  apply Hinv.
Qed.

Lemma sent_dom (cs : list request) (this : ref) :
  forall σ : store, dom (sent cs this σ) = dom σ.
Proof.
  induction cs as [|c cs IH]; intros σ; [reflexivity |].
  change (sent (c :: cs) this σ) with (sent cs this (fst (send c this σ))).
  rewrite IH. apply send_dom.
Qed.

Lemma facade_eq (c : request) : facade c = and_then new (send c).
Proof. destruct c as [[] value | a comb b]; reflexivity. Qed.

(** A top-level call allocates one builder and changes no other. *)
Lemma facade_fresh (c : request) (σ σ' : store) (this : ref) :
  facade c σ = (σ', Normal this) ->
  this = fresh (dom σ) /\ dom σ' = {[this]} ∪ dom σ
  /\ forall other, other <> this -> σ' !! other = σ !! other.
Proof.
  rewrite facade_eq. unfold and_then, new. intros H.
  set (r := fresh (dom σ)) in *. set (σ0 := <[r := CssSelectorCreator.constructor]> σ) in *.
  assert (Hret : forall m s t, invoke m r σ0 = (s, Normal t) -> t = r).
  { intros m s t. unfold invoke, σ0. rewrite lookup_insert_eq.
    destruct (snd (m CssSelectorCreator.constructor)); simpl; congruence. }
  assert (Hthis : this = r).
  { destruct c as [k value | a comb b]; simpl in H; [now apply Hret in H |].
    destruct (σ0 !! a); [| discriminate H]. destruct (σ0 !! b); [| discriminate H].
    now apply Hret in H. }
  subst this. split; [reflexivity |].
  pose proof (send_dom c r σ0) as Hdom. pose proof (send_other c r) as Hoth.
  rewrite H in Hdom. simpl in Hdom. split.
  - rewrite Hdom. unfold σ0. now rewrite dom_insert_L.
  - intros other Hne. specialize (Hoth other σ0 Hne). rewrite H in Hoth.
    simpl in Hoth. rewrite Hoth. unfold σ0. now apply lookup_insert_ne.
Qed.

Lemma resolve_part (σ : store) (p : kind * string) :
  resolve σ (part_request p) = Some (part_call p).
Proof. reflexivity. Qed.

(** A fluent chain of part calls through a reference is the chain on the
    object. *)
Lemma chained_parts (ps : list (kind * string)) (this : ref) :
  forall (σ : store) (o : CssSelectorCreator),
    σ !! this = Some o ->
    chained (map part_request ps) this σ
    = (<[this := fst (chain (map part_call ps) o)]> σ,
       returning this (snd (chain (map part_call ps) o))).
Proof.
  induction ps as [|p ps IH]; intros σ o Ho.
  - simpl. now rewrite insert_id.
  - cbn [map chained chain]. unfold and_then, CssSelectorCreator.bind.
    rewrite (send_eq _ this σ o _ Ho (resolve_part σ p)).
    destruct (perform (part_call p) o) as [o1 [[] | message]]; simpl.
    + rewrite (IH _ o1); [| apply lookup_insert_eq].
      now rewrite insert_insert_eq.
    + reflexivity.
Qed.

Lemma build_parts (p : kind * string) (ps : list (kind * string)) (σ : store) :
  let this := fresh (dom σ) in
  let result := chain (map part_call (p :: ps)) CssSelectorCreator.constructor in
  build (part_request p) (map part_request ps) σ
  = (<[this := fst result]> σ, returning this (snd result)).
Proof.
  intros this result. unfold build. rewrite facade_eq.
  unfold and_then at 1. unfold and_then at 1. unfold new. fold this.
  set (σ0 := <[this := CssSelectorCreator.constructor]> σ).
  pose proof (chained_parts (p :: ps) this σ0 CssSelectorCreator.constructor
                (lookup_insert_eq _ _ _)) as H.
  cbn [map chained] in H. unfold and_then in H.
  fold result in H. rewrite H. unfold σ0. now rewrite insert_insert_eq.
Qed.

(** * The builder's properties *)

(** C1. A chain of part calls whose kinds follow the canonical order
    [element? id? class* attr* pseudo-class* pseudo-element?], begun on the
    facade, completes normally with the builder the facade made, and
    [stringify()] then returns the fragments of the calls, concatenated in
    call order. *)
Theorem canonical_build_stringify (e i : bool) (nc na np : nat) (pe : bool)
    (p : kind * string) (ps : list (kind * string)) (σ : store) :
  map fst (p :: ps) = canonical_sequence e i nc na np pe ->
  let this := fresh (dom σ) in
  exists σ' : store,
    build (part_request p) (map part_request ps) σ = (σ', Normal this)
    /\ stringify this σ' = (σ', Normal (fragments (p :: ps))).
Proof.
  intros Hks this.
  pose proof (canonical_sequence_canonical e i nc na np pe) as Hcan.
  rewrite <- Hks in Hcan.
  pose proof (chain_canonical (p :: ps) CssSelectorCreator.constructor []
                eq_refl Hcan) as Hchain.
  pose proof (build_parts p ps σ) as Hbuild. cbv zeta in Hbuild.
  rewrite Hchain in Hbuild. cbn [fst snd returning] in Hbuild.
  eexists. split; [exact Hbuild |].
  unfold stringify. rewrite lookup_insert_eq. reflexivity.
Qed.

Lemma canonical_build_stringify_witness :
  map fst [(Id, "main"); (Class, "container"); (Class, "editable")]
  = canonical_sequence false true 2 0 0 false
  /\ exists σ' : store,
       build (part_request (Id, "main"))
         (map part_request [(Class, "container"); (Class, "editable")]) ∅
       = (σ', Normal (fresh (dom (∅ : store))))
       /\ stringify (fresh (dom (∅ : store))) σ'
          = (σ', Normal "#main.container.editable").
Proof.
  split; [reflexivity |].
  apply (canonical_build_stringify false true 2 0 0 false (Id, "main")
           [(Class, "container"); (Class, "editable")] ∅).
  reflexivity.
Defined.

Lemma stringify_inv (this : ref) (σ σ' : store) (s : string) :
  stringify this σ = (σ', Normal s) ->
  exists o, σ !! this = Some o /\ selector o = s.
Proof.
  unfold stringify. destruct (σ !! this) as [o|]; [| discriminate].
  intros H. injection H as _ <-. now exists o.
Qed.

Lemma stringify_eq (this : ref) (σ : store) (o : CssSelectorCreator) :
  σ !! this = Some o -> stringify this σ = (σ, Normal (selector o)).
Proof. intros H. unfold stringify. now rewrite H. Qed.

Lemma combine_allowed (selector1 selector2 this : CssSelectorCreator)
    (combinator : string) :
  In combinator [" "; "+"; "~"; ">"] ->
  CssSelectorCreator.combine selector1 combinator selector2 this
  = ({| selector := selector this +:+ selector selector1 +:+ " "
                    +:+ combinator +:+ " " +:+ selector selector2;
        creationOrder := creationOrder this |}, Normal tt).
Proof.
  intros [<- | [<- | [<- | [<- | []]]]]; reflexivity.
Qed.

(** C2. For builders [a] and [b] and a combinator [c] among [' '], ['+'],
    ['~'] and ['>'], [combine(a, c, b)] on the facade completes normally
    with a new builder whose text is [a.stringify() + ' ' + c + ' ' +
    b.stringify()], and leaves [a] and [b] as they were; called on a
    builder that already holds text, [combine] appends the combined text
    after it; and with [c = ' '] three spaces stand between the two texts. *)
Theorem combine_stringify (σ : store) (a b : ref) (sa sb c : string) :
  stringify a σ = (σ, Normal sa) ->
  stringify b σ = (σ, Normal sb) ->
  In c [" "; "+"; "~"; ">"] ->
  (exists (σ' : store) (this : ref),
      cssSelectorBuilder.combine a c b σ = (σ', Normal this)
      /\ stringify this σ' = (σ', Normal (sa +:+ " " +:+ c +:+ " " +:+ sb))
      /\ stringify a σ' = (σ', Normal sa)
      /\ stringify b σ' = (σ', Normal sb))
  /\ (forall (this : ref) (st : string),
        stringify this σ = (σ, Normal st) ->
        exists σ' : store,
          send (RCombine a c b) this σ = (σ', Normal this)
          /\ stringify this σ'
             = (σ', Normal (st +:+ sa +:+ " " +:+ c +:+ " " +:+ sb)))
  /\ (c = " " -> sa +:+ " " +:+ c +:+ " " +:+ sb = sa +:+ "   " +:+ sb).
Proof.
  intros Ha Hb Hc.
  apply stringify_inv in Ha as [oa [Ha <-]].
  apply stringify_inv in Hb as [ob [Hb <-]].
  split; [| split].
  - set (this := fresh (dom σ)).
    set (σ0 := <[this := CssSelectorCreator.constructor]> σ).
    assert (Hfresh : forall r o, σ !! r = Some o -> r <> this).
    { intros r o Hr ->. apply elem_of_dom_2 in Hr. now apply is_fresh in Hr. }
    assert (Ha0 : σ0 !! a = Some oa).
    { unfold σ0. rewrite lookup_insert_ne; [exact Ha |].
      intros E. now apply (Hfresh a oa Ha). }
    assert (Hb0 : σ0 !! b = Some ob).
    { unfold σ0. rewrite lookup_insert_ne; [exact Hb |].
      intros E. now apply (Hfresh b ob Hb). }
    assert (Hres : resolve σ0 (RCombine a c b) = Some (Combine oa c ob)).
    { simpl. now rewrite Ha0, Hb0. }
    pose proof (send_eq _ this σ0 _ _ (lookup_insert_eq _ _ _) Hres) as Hsend.
    cbn [perform] in Hsend. rewrite (combine_allowed _ _ _ _ Hc) in Hsend.
    cbn [fst snd returning] in Hsend.
    eexists. exists this. split; [| split; [| split]].
    + unfold cssSelectorBuilder.combine, and_then, new. fold this. fold σ0.
      exact Hsend.
    + rewrite (stringify_eq this _ _ (lookup_insert_eq _ _ _)). reflexivity.
    + rewrite (stringify_eq a _ oa); [reflexivity |].
      rewrite lookup_insert_ne; [exact Ha0 |].
      intros E. now apply (Hfresh a oa Ha).
    + rewrite (stringify_eq b _ ob); [reflexivity |].
      rewrite lookup_insert_ne; [exact Hb0 |].
      intros E. now apply (Hfresh b ob Hb).
  - intros this st Ht. apply stringify_inv in Ht as [ot [Ht <-]].
    assert (Hres : resolve σ (RCombine a c b) = Some (Combine oa c ob)).
    { simpl. now rewrite Ha, Hb. }
    pose proof (send_eq _ this σ _ _ Ht Hres) as Hsend.
    cbn [perform] in Hsend. rewrite (combine_allowed _ _ _ _ Hc) in Hsend.
    cbn [fst snd returning] in Hsend.
    eexists. split; [exact Hsend |].
    rewrite (stringify_eq this _ _ (lookup_insert_eq _ _ _)). reflexivity.
  - now intros ->.
Qed.

Lemma combine_stringify_witness :
  let σ : store :=
    <[1%positive := {| selector := "tr:nth-of-type(even)";
                       creationOrder := "elementpseudo-class" |}]>
      (<[2%positive := {| selector := "td"; creationOrder := "element" |}]> ∅) in
  stringify 1%positive σ = (σ, Normal "tr:nth-of-type(even)")
  /\ stringify 2%positive σ = (σ, Normal "td")
  /\ In " " [" "; "+"; "~"; ">"]
  /\ exists (σ' : store) (this : ref),
       cssSelectorBuilder.combine 1%positive " " 2%positive σ = (σ', Normal this)
       /\ stringify this σ' = (σ', Normal "tr:nth-of-type(even)   td")
       /\ stringify 1%positive σ' = (σ', Normal "tr:nth-of-type(even)")
       /\ stringify 2%positive σ' = (σ', Normal "td").
Proof.
  intros σ.
  assert (H1 : stringify 1%positive σ = (σ, Normal "tr:nth-of-type(even)"))
    by reflexivity.
  assert (H2 : stringify 2%positive σ = (σ, Normal "td")) by reflexivity.
  assert (Hc : In " " [" "; "+"; "~"; ">"]) by (simpl; auto).
  split; [exact H1 |]. split; [exact H2 |]. split; [exact Hc |].
  exact (proj1 (combine_stringify σ 1%positive 2%positive _ _ " " H1 H2 Hc)).
Defined.

(** ** What a call does to the recorded kinds *)

Lemma part_normal_inv (k : kind) (value : string) (this this' : CssSelectorCreator) :
  part k value this = (this', Normal tt) -> this' = appended k value this.
Proof.
  rewrite part_eq.
  destruct (single k && test (of_source (tag k)) (creationOrder this));
    [discriminate |].
  destruct (test CssSelectorCreator.validOrderPattern (creationOrder this +:+ tag k));
    [| discriminate].
  now intros [= <-].
Qed.

(** A call leaves [creationOrder] as it is or appends the tag of its kind. *)
Lemma perform_creationOrder (c : call) (this : CssSelectorCreator) :
  creationOrder (fst (perform c this)) = creationOrder this
  \/ exists k value,
       c = Part k value
       /\ creationOrder (fst (perform c this)) = creationOrder this +:+ tag k.
Proof.
  destruct c as [k value | o1 comb o2]; cbn [perform].
  - rewrite part_eq.
    destruct (single k && test (of_source (tag k)) (creationOrder this));
      [now left |].
    right. exists k, value.
    now destruct (test CssSelectorCreator.validOrderPattern
                    (creationOrder this +:+ tag k)).
  - left. unfold CssSelectorCreator.combine.
    now destruct (negb (test CssSelectorCreator.allowedCombinators comb)).
Qed.

Lemma after_cons (c : call) (cs : list call) (this : CssSelectorCreator) :
  after (c :: cs) this = after cs (fst (perform c this)).
Proof. reflexivity. Qed.

Lemma after_app (cs cs' : list call) (this : CssSelectorCreator) :
  after (cs ++ cs') this = after cs' (after cs this).
Proof. unfold after. apply fold_left_app. Qed.

(** [creationOrder] only grows. *)
Lemma after_creationOrder_extends (cs : list call) :
  forall this, exists u, creationOrder (after cs this) = creationOrder this +:+ u.
Proof.
  induction cs as [|c cs IH]; intros this.
  - exists "". simpl. now rewrite append_nil_r.
  - rewrite after_cons. destruct (IH (fst (perform c this))) as [u Hu].
    rewrite Hu.
    destruct (perform_creationOrder c this) as [-> | [k [value [_ ->]]]].
    + now exists u.
    + exists (tag k +:+ u). apply append_assoc.
Qed.

Lemma test_tag_self (k : kind) : test (of_source (tag k)) (tag k) = true.
Proof. destruct k; reflexivity. Qed.

(** A tag that was recorded stays found, whatever is called afterwards. *)
Lemma test_tag_stays (k : kind) (cs : list call) (this : CssSelectorCreator) :
  test (of_source (tag k)) (creationOrder this) = true ->
  test (of_source (tag k)) (creationOrder (after cs this)) = true.
Proof.
  intros H. destruct (after_creationOrder_extends cs this) as [u ->].
  apply (test_unanchored_inside _ _ "" u) in H. simpl in H.
  exact H.
Qed.

(** C3. Once a call of kind element, id or pseudo-element completed
    normally on a builder, every later call of that kind on the builder
    throws the duplicate error and changes nothing, whatever calls were
    made on the builder in between and however they ended. *)
Theorem duplicate_rejected (this this1 : CssSelectorCreator) (k : kind)
    (value value' : string) (cs : list call) :
  single k = true ->
  part k value this = (this1, Normal tt) ->
  part k value' (after cs this1)
  = (after cs this1, ErrorCreator.noDuplicateSelectors).
Proof.
  intros Hk Hpart. apply part_normal_inv in Hpart. subst this1.
  assert (H : test (of_source (tag k))
                (creationOrder (after cs (appended k value this))) = true).
  { apply test_tag_stays. cbn [appended creationOrder].
    pose proof (test_unanchored_inside (lit (tag k)) (tag k)
                  (creationOrder this) "" (test_tag_self k)) as H.
    now rewrite append_nil_r in H. }
  now rewrite part_eq, Hk, H.
Qed.

Lemma duplicate_rejected_witness :
  single Id = true
  /\ part Id "main" CssSelectorCreator.constructor
     = ({| selector := "#main"; creationOrder := "id" |}, Normal tt)
  /\ part Id "other"
       (after [Part Class "container"; Part Element "div"]
          {| selector := "#main"; creationOrder := "id" |})
     = (after [Part Class "container"; Part Element "div"]
          {| selector := "#main"; creationOrder := "id" |},
        ErrorCreator.noDuplicateSelectors).
Proof.
  split; [reflexivity |]. split; [reflexivity |].
  apply (duplicate_rejected CssSelectorCreator.constructor _ Id "main" "other"
           [Part Class "container"; Part Element "div"]);
    reflexivity.
Defined.

Lemma called_app (cs cs' : list call) : called (cs ++ cs') = called cs ++ called cs'.
Proof.
  induction cs as [|[k value | o1 comb o2] cs IH]; simpl; [reflexivity | |];
    now rewrite IH.
Qed.

(** On a builder whose [creationOrder] is a sequence of tags it stays one,
    and gains tags of kinds that were called only. *)
Lemma after_recorded (cs : list call) :
  forall this ks,
    creationOrder this = tags ks ->
    exists ks', creationOrder (after cs this) = tags (ks ++ ks')
                /\ incl ks' (called cs).
Proof.
  induction cs as [|c cs IH]; intros this ks Hco.
  - exists []. rewrite app_nil_r. split; [exact Hco | apply incl_refl].
  - rewrite after_cons.
    destruct (perform_creationOrder c this) as [Hsame | [k [value [-> Hrec]]]].
    + destruct (IH (fst (perform c this)) ks) as [ks' [H1 H2]];
        [now rewrite Hsame |].
      exists ks'. split; [exact H1 |].
      destruct c; simpl; [now apply incl_tl | exact H2].
    + destruct (IH (fst (perform (Part k value) this)) (ks ++ [k]))
        as [ks' [H1 H2]]; [now rewrite Hrec, Hco, tags_snoc |].
      exists (k :: ks'). rewrite <- app_assoc in H1. split; [exact H1 |].
      simpl. intros x [<- | Hx]; [now left | right; now apply H2].
Qed.

(** The tag of a called kind that may occur once is found from then on. *)
Lemma called_found (k : kind) (cs : list call) :
  single k = true ->
  forall this,
    In k (called cs) ->
    test (of_source (tag k)) (creationOrder (after cs this)) = true.
Proof.
  intros Hk. induction cs as [|[k' value | o1 comb o2] cs IH]; intros this Hin.
  - destruct Hin.
  - rewrite after_cons. simpl in Hin. destruct Hin as [-> | Hin]; [| now apply IH].
    apply test_tag_stays. cbn [perform]. rewrite part_eq, Hk. cbn [andb].
    destruct (test (of_source (tag k)) (creationOrder this)) eqn:E; [exact E |].
    pose proof (test_unanchored_inside (lit (tag k)) (tag k)
                  (creationOrder this) "" (test_tag_self k)) as H.
    rewrite append_nil_r in H.
    now destruct (test CssSelectorCreator.validOrderPattern
                    (creationOrder this +:+ tag k)).
  - rewrite after_cons. now apply IH.
Qed.

(** A kind after one of later rank is not canonical. *)
Lemma out_of_order_not_canonical (ks : list kind) (k1 k2 : kind) :
  In k2 ks -> rank k1 < rank k2 -> canonical (ks ++ [k1]) = false.
Proof.
  intros Hin Hlt. apply not_true_is_false. intros H.
  pose proof (canonical_from_before ks [] k1 0 k2 H Hin).
  pose proof (rank_le_next k2). lia.
Qed.

Lemma tag_not_found (ks : list kind) (k : kind) :
  single k = true ->
  ~ In k ks -> (k = Element -> ~ In PseudoElement ks) ->
  test (of_source (tag k)) (tags ks) = false.
Proof.
  intros Hk Hnot Hpe. rewrite test_tag_tags. apply not_true_is_false.
  intros Hex. apply existsb_exists in Hex as [k' [Hin Hocc]].
  apply occurs_in_spec in Hocc as [<- | [[-> ->] | [-> ->]]].
  - now apply Hnot.
  - now apply Hpe.
  - discriminate Hk.
Qed.

(** C4, as the code has it.  On a builder made by the constructor, let a
    call of kind [k2] complete normally and a call of an earlier kind [k1]
    follow, after any other calls.  The later call throws.  It throws the
    order error, with [k1] recorded, when [k1] is class, attribute or
    pseudo-class, and when [k1] is element or id and no call of kind [k1]
    was made before nor, for element, a call of kind pseudo-element.  It
    throws the duplicate error when [k1] is element or id and a call of
    kind [k1] was made before: the duplicate check comes first. *)
Theorem out_of_order_rejected (cs1 cs2 : list call) (k1 k2 : kind)
    (v1 v2 : string) (this1 : CssSelectorCreator) :
  part k2 v2 (after cs1 CssSelectorCreator.constructor) = (this1, Normal tt) ->
  rank k1 < rank k2 ->
  let this2 := after cs2 this1 in
  let before := called (cs1 ++ Part k2 v2 :: cs2) in
  ((single k1 = true ->
    ~ In k1 before /\ (k1 = Element -> ~ In PseudoElement before)) ->
   part k1 v1 this2 = (recorded k1 this2, ErrorCreator.selectorsOrderError))
  /\ (single k1 = true -> In k1 before ->
      part k1 v1 this2 = (this2, ErrorCreator.noDuplicateSelectors)).
Proof.
  intros Hpart Hlt this2 before.
  assert (Hafter : after (cs1 ++ Part k2 v2 :: cs2) CssSelectorCreator.constructor
                   = this2).
  { rewrite after_app, after_cons. cbn [perform]. now rewrite Hpart. }
  destruct (after_recorded (cs1 ++ Part k2 v2 :: cs2)
              CssSelectorCreator.constructor [] eq_refl) as [ks [Hco Hincl]].
  rewrite Hafter in Hco. simpl in Hco. fold before in Hincl.
  assert (Hk2 : In k2 ks).
  { destruct (after_recorded cs1 CssSelectorCreator.constructor [] eq_refl)
      as [ks0 [Hco0 _]]. simpl in Hco0.
    pose proof (part_normal_inv _ _ _ _ Hpart) as ->.
    destruct (after_recorded cs2
                (appended k2 v2 (after cs1 CssSelectorCreator.constructor))
                (ks0 ++ [k2])) as [ks2 [Hco2 _]].
    { cbn [appended creationOrder]. now rewrite Hco0, tags_snoc. }
    fold this2 in Hco2. rewrite Hco in Hco2.
    apply tags_inj in Hco2 as ->.
    apply in_or_app. left. apply in_or_app. right. now left. }
  split.
  - intros Hcond. rewrite part_eq, Hco.
    replace (single k1 && test (of_source (tag k1)) (tags ks)) with false.
    + rewrite <- tags_snoc, test_validOrderPattern.
      now rewrite (out_of_order_not_canonical ks k1 k2 Hk2 Hlt).
    + destruct (single k1) eqn:Hk1; [simpl | reflexivity].
      destruct (Hcond eq_refl) as [Hnot Hpe]. symmetry.
      apply tag_not_found; [exact Hk1 | |].
      * intros Hin. apply Hnot, Hincl, Hin.
      * intros -> Hin. apply (Hpe eq_refl), Hincl, Hin.
  - intros Hk1 Hin. rewrite part_eq, Hk1. cbn [andb]. rewrite <- Hafter.
    now rewrite (called_found k1 _ Hk1).
Qed.

Lemma out_of_order_rejected_witness :
  part Class "x" (after [] CssSelectorCreator.constructor)
  = ({| selector := ".x"; creationOrder := "class" |}, Normal tt)
  /\ rank Element < rank Class
  /\ part Element "a" {| selector := ".x"; creationOrder := "class" |}
     = ({| selector := ".x"; creationOrder := "classelement" |},
        ErrorCreator.selectorsOrderError).
Proof.
  assert (H : part Class "x" (after [] CssSelectorCreator.constructor)
              = ({| selector := ".x"; creationOrder := "class" |}, Normal tt))
    by reflexivity.
  assert (Hlt : rank Element < rank Class) by (simpl; lia).
  split; [exact H |]. split; [exact Hlt |].
  apply (proj1 (out_of_order_rejected [] [] Element Class "a" "x" _ H Hlt)).
  intros _. split.
  - intros [E | []]. discriminate E.
  - intros _ [E | []]. discriminate E.
Defined.

(** C4 as the specification states it fails: after [id('a').class('b')],
    the call [id('c')] is of an earlier kind than class, and it throws the
    duplicate error, not the order error. *)
Lemma out_of_order_duplicate_counterexample :
  let this1 := {| selector := "#a.b"; creationOrder := "idclass" |} in
  chain [Part Id "a"; Part Class "b"] CssSelectorCreator.constructor
  = (this1, Normal tt)
  /\ rank Id < rank Class
  /\ part Id "c" this1 = (this1, ErrorCreator.noDuplicateSelectors)
  /\ snd (part Id "c" this1) <> ErrorCreator.selectorsOrderError.
Proof.
  intros this1. split; [reflexivity |]. split; [simpl; lia |].
  split; [reflexivity |]. intros H. vm_compute in H. discriminate H.
Qed.

(** [element] after [pseudo-element] throws the duplicate error too: the
    tag of element is found inside the tag of pseudo-element. *)
Lemma element_after_pseudoElement :
  chain [Part PseudoElement "after"; Part Element "a"] CssSelectorCreator.constructor
  = ({| selector := "::after"; creationOrder := "pseudo-element" |},
     ErrorCreator.noDuplicateSelectors).
Proof. reflexivity. Qed.

(** ** The combinator check *)

Lemma matches_prefix_nullable (r : regex) (s : string) :
  nullable r = true -> matches_prefix r s = true.
Proof. intros H. destruct s; simpl; now rewrite H. Qed.

(** [allowedCombinators] is not anchored: it finds an allowed character
    anywhere in the combinator. *)
Lemma test_allowedCombinators (combinator : string) :
  test CssSelectorCreator.allowedCombinators combinator
  = holds_combinator_character combinator.
Proof.
  unfold test; simpl. induction combinator as [|a s IH]; [reflexivity |].
  cbn [at_some_position holds_combinator_character]. rewrite IH. f_equal.
  cbn [matches_prefix nullable deriv orb]. unfold combinator_character.
  destruct (is_space a), (Ascii.eqb a "+"), (Ascii.eqb a "~"), (Ascii.eqb a ">");
    cbn [alt seq orb];
    first [apply matches_prefix_Void | now apply matches_prefix_nullable].
Qed.

Lemma combine_eq (selector1 selector2 this : CssSelectorCreator)
    (combinator : string) :
  CssSelectorCreator.combine selector1 combinator selector2 this
  = if holds_combinator_character combinator
    then ({| selector := selector this +:+ selector selector1 +:+ " "
                         +:+ combinator +:+ " " +:+ selector selector2;
             creationOrder := creationOrder this |}, Normal tt)
    else (this, ErrorCreator.combinatorError (dquote +:+ " " +:+ dquote +:+ ", +, ~, >")).
Proof.
  unfold CssSelectorCreator.combine. rewrite test_allowedCombinators.
  now destruct (holds_combinator_character combinator).
Qed.

(** C5: the code at the combinators ['++'] and tab, which are none of the
    four allowed strings.  [combine] completes normally on both, since each
    holds a character the unanchored pattern finds. *)
Theorem combine_accepts_other_combinators :
  let div := {| selector := "div"; creationOrder := "element" |} in
  let span := {| selector := "span"; creationOrder := "element" |} in
  let tab := String (ascii_of_nat 9) "" in
  ~ In "++" [" "; "+"; "~"; ">"]
  /\ ~ In tab [" "; "+"; "~"; ">"]
  /\ CssSelectorCreator.combine div "++" span CssSelectorCreator.constructor
     = ({| selector := "div ++ span"; creationOrder := "" |}, Normal tt)
  /\ CssSelectorCreator.combine div tab span CssSelectorCreator.constructor
     = ({| selector := "div " +:+ tab +:+ " span"; creationOrder := "" |},
        Normal tt).
Proof.
  intros div span tab. split; [| split; [| split]]; try reflexivity.
  - intros [E | [E | [E | [E | []]]]]; discriminate E.
  - intros [E | [E | [E | [E | []]]]]; discriminate E.
Qed.

(** ** Calls that throw *)

(** C6, as the code has it.  When a call throws, the text of the builder,
    and so [stringify()], is as before the call.  When the error is the
    duplicate error or the combinator error the whole builder is as before,
    so that every later call does what it would have done without the
    failing call.  When the error is the order error the call was a part
    call and its kind stays recorded in [creationOrder]: the check appends
    the tag before it tests the order. *)
Theorem throwing_call_effect (c : call) (this this' : CssSelectorCreator)
    (message : string) :
  perform c this = (this', Throw message) ->
  CssSelectorCreator.stringify this' = CssSelectorCreator.stringify this
  /\ ((Throw message = ErrorCreator.noDuplicateSelectors (A := unit)
       \/ Throw message
          = ErrorCreator.combinatorError (A := unit)
              (dquote +:+ " " +:+ dquote +:+ ", +, ~, >"))
      /\ this' = this
      \/ Throw message = ErrorCreator.selectorsOrderError (A := unit)
         /\ exists k value, c = Part k value /\ this' = recorded k this).
Proof.
  destruct c as [k value | o1 comb o2]; cbn [perform].
  - rewrite part_eq.
    destruct (single k && test (of_source (tag k)) (creationOrder this)).
    + intros [= <- <-]. split; [reflexivity |]. left. split; [now left | reflexivity].
    + destruct (test CssSelectorCreator.validOrderPattern
                  (creationOrder this +:+ tag k)); [discriminate |].
      intros [= <- <-]. split; [reflexivity |]. right.
      split; [reflexivity |]. now exists k, value.
  - rewrite combine_eq. destruct (holds_combinator_character comb); [discriminate |].
    intros [= <- <-]. split; [reflexivity |]. left. split; [now right | reflexivity].
Qed.

Lemma throwing_call_effect_witness :
  perform (Part Element "a") {| selector := ".x"; creationOrder := "class" |}
  = ({| selector := ".x"; creationOrder := "classelement" |},
     ErrorCreator.selectorsOrderError)
  /\ CssSelectorCreator.stringify {| selector := ".x"; creationOrder := "classelement" |}
     = CssSelectorCreator.stringify {| selector := ".x"; creationOrder := "class" |}.
Proof.
  assert (H : perform (Part Element "a") {| selector := ".x"; creationOrder := "class" |}
              = ({| selector := ".x"; creationOrder := "classelement" |},
                 ErrorCreator.selectorsOrderError)) by reflexivity.
  split; [exact H |].
  exact (proj1 (throwing_call_effect _ _ _ _ H)).
Defined.

(** C6 as the specification states it fails: on the builder of
    [class('x')] the call [class('y')] completes normally; after
    [element('a')] threw the order error on that builder, the same call
    throws. *)
Lemma order_error_recorded_counterexample :
  let this := {| selector := ".x"; creationOrder := "class" |} in
  let this' := {| selector := ".x"; creationOrder := "classelement" |} in
  snd (part Class "y" this) = Normal tt
  /\ part Element "a" this = (this', ErrorCreator.selectorsOrderError)
  /\ snd (part Class "y" this') = ErrorCreator.selectorsOrderError
  /\ snd (part Class "y" this') <> snd (part Class "y" this).
Proof.
  intros this this'. repeat split; try reflexivity.
  intros H. vm_compute in H. discriminate H.
Qed.

(** C9, as the code has it.  When the duplicate check finds the tag of an
    element, id or pseudo-element call among the recorded tags, the call
    throws an error whose message is "Element, id and pseudo-element should
    not occur more then one time inside the selector", and changes nothing. *)
Theorem duplicate_message (k : kind) (value : string) (this : CssSelectorCreator) :
  single k = true ->
  test (of_source (tag k)) (creationOrder this) = true ->
  part k value this
  = (this, Throw "Element, id and pseudo-element should not occur more then one time inside the selector").
Proof. intros Hk H. now rewrite part_eq, Hk, H. Qed.

Lemma duplicate_message_witness :
  single Id = true
  /\ test (of_source (tag Id)) (creationOrder {| selector := "#main"; creationOrder := "id" |}) = true
  /\ part Id "other" {| selector := "#main"; creationOrder := "id" |}
     = ({| selector := "#main"; creationOrder := "id" |},
        Throw "Element, id and pseudo-element should not occur more then one time inside the selector").
Proof.
  split; [reflexivity |]. split; [reflexivity |].
  apply (duplicate_message Id "other" {| selector := "#main"; creationOrder := "id" |});
    reflexivity.
Defined.

(** C9 as the specification states it fails: the message of the error
    that [id('main').id('other')] throws is not the one the specification
    quotes, which reads "more than one time". *)
Lemma duplicate_message_counterexample :
  snd (chain [Part Id "main"; Part Id "other"] CssSelectorCreator.constructor)
  <> Throw "Element, id and pseudo-element should not occur more than one time inside the selector".
Proof. intros H. vm_compute in H. discriminate H. Qed.

(** ** [combine] and the recorded kinds *)

(** C10. [combine] neither checks nor records a kind.  It completes
    normally or throws the combinator error, never the duplicate or the
    order error, and it leaves [creationOrder] as it is.  So a part call
    after a [combine] passes or fails the checks as it would have before
    it, records what it would have recorded, and when it completes normally
    its fragment stands after the text the [combine] left. *)
Theorem combine_records_nothing (selector1 selector2 this : CssSelectorCreator)
    (combinator : string) :
  (snd (CssSelectorCreator.combine selector1 combinator selector2 this) = Normal tt
   \/ CssSelectorCreator.combine selector1 combinator selector2 this
      = (this, ErrorCreator.combinatorError (dquote +:+ " " +:+ dquote +:+ ", +, ~, >")))
  /\ creationOrder (fst (CssSelectorCreator.combine selector1 combinator selector2 this))
     = creationOrder this
  /\ forall (k : kind) (value : string),
       let this' := fst (CssSelectorCreator.combine selector1 combinator selector2 this) in
       snd (part k value this') = snd (part k value this)
       /\ creationOrder (fst (part k value this'))
          = creationOrder (fst (part k value this))
       /\ (snd (part k value this') = Normal tt ->
           selector (fst (part k value this')) = selector this' +:+ fragment k value).
Proof.
  assert (Hco : creationOrder
                  (fst (CssSelectorCreator.combine selector1 combinator selector2 this))
                = creationOrder this).
  { rewrite combine_eq. now destruct (holds_combinator_character combinator). }
  split; [| split; [exact Hco |]].
  - rewrite combine_eq. destruct (holds_combinator_character combinator);
      [now left | now right].
  - intros k value this'. fold this' in Hco. rewrite !part_eq, Hco.
    destruct (single k && test (of_source (tag k)) (creationOrder this)).
    + repeat split; try exact Hco. discriminate.
    + destruct (test CssSelectorCreator.validOrderPattern
                  (creationOrder this +:+ tag k));
        cbn [fst snd appended recorded creationOrder selector];
        rewrite Hco; repeat split. discriminate.
Qed.

(** ** The facade *)

Lemma resolve_insert_fresh (σ : store) (c : request) (c' : call)
    (o : CssSelectorCreator) :
  resolve σ c = Some c' -> resolve (<[fresh (dom σ) := o]> σ) c = Some c'.
Proof.
  destruct c as [k value | a comb b]; simpl; [trivial |].
  destruct (σ !! a) as [oa|] eqn:Ha; [| discriminate].
  destruct (σ !! b) as [ob|] eqn:Hb; [| discriminate].
  intros H. rewrite !lookup_insert_ne, Ha, Hb; [exact H | |].
  - intros E. apply elem_of_dom_2 in Hb. rewrite <- E in Hb.
    now apply is_fresh in Hb.
  - intros E. apply elem_of_dom_2 in Ha. rewrite <- E in Ha.
    now apply is_fresh in Ha.
Qed.

(** A top-level call is the call on a builder fresh from the constructor. *)
Lemma facade_forwards (c : request) (c' : call) (σ : store) :
  resolve σ c = Some c' ->
  let this := fresh (dom σ) in
  facade c σ
  = (<[this := fst (perform c' CssSelectorCreator.constructor)]> σ,
     returning this (snd (perform c' CssSelectorCreator.constructor))).
Proof.
  intros Hres this. rewrite facade_eq. unfold and_then, new. fold this.
  rewrite (send_eq c this _ CssSelectorCreator.constructor c'
             (lookup_insert_eq _ _ _)
             (resolve_insert_fresh σ c c' _ Hres)).
  now rewrite insert_insert_eq.
Qed.

(** C7. A top-level call on the facade makes a builder the store did not
    hold, gives it the call with the arguments it was given, and changes
    no builder there was.  Two builders from two top-level calls are two
    objects: the second call leaves the first builder as it is, and calls
    on one of them, however many and whatever their arguments, leave the
    other and what it stringifies to as they are. *)
Theorem facade_builders_independent (σ σ1 σ2 : store) (c1 c2 : request)
    (cs : list request) (r1 r2 : ref) :
  facade c1 σ = (σ1, Normal r1) ->
  facade c2 (sent cs r1 σ1) = (σ2, Normal r2) ->
  (r1 ∉ dom σ)
  /\ (r2 ∉ dom (sent cs r1 σ1))
  /\ r1 <> r2
  /\ (forall c1', resolve σ c1 = Some c1' ->
        σ1 !! r1 = Some (fst (perform c1' CssSelectorCreator.constructor)))
  /\ (forall other, other <> r1 -> σ1 !! other = σ !! other)
  /\ σ2 !! r1 = sent cs r1 σ1 !! r1
  /\ forall cs' : list request,
       sent cs' r1 σ2 !! r2 = σ2 !! r2
       /\ sent cs' r2 σ2 !! r1 = σ2 !! r1
       /\ snd (stringify r2 (sent cs' r1 σ2)) = snd (stringify r2 σ2)
       /\ snd (stringify r1 (sent cs' r2 σ2)) = snd (stringify r1 σ2).
Proof.
  intros H1 H2.
  destruct (facade_fresh _ _ _ _ H1) as [Hr1 [Hdom1 Hother1]].
  destruct (facade_fresh _ _ _ _ H2) as [Hr2 [Hdom2 Hother2]].
  assert (Hin1 : r1 ∈ dom (sent cs r1 σ1)).
  { rewrite sent_dom, Hdom1. apply elem_of_union_l. now apply elem_of_singleton. }
  assert (Hfresh2 : r2 ∉ dom (sent cs r1 σ1)) by (rewrite Hr2; apply is_fresh).
  assert (Hne : r1 <> r2) by (intros E; apply Hfresh2; now rewrite <- E).
  split; [rewrite Hr1; apply is_fresh |].
  split; [exact Hfresh2 |]. split; [exact Hne |].
  split; [| split; [exact Hother1 | split; [now apply Hother2 |]]].
  - intros c1' Hres. pose proof (facade_forwards c1 c1' σ Hres) as Hf.
    cbv zeta in Hf. rewrite H1 in Hf. injection Hf as -> _.
    rewrite Hr1. apply lookup_insert_eq.
  - intros cs'.
    assert (Hs2 : sent cs' r1 σ2 !! r2 = σ2 !! r2)
      by (apply sent_other; congruence).
    assert (Hs1 : sent cs' r2 σ2 !! r1 = σ2 !! r1)
      by (apply sent_other; congruence).
    split; [exact Hs2 |]. split; [exact Hs1 |].
    unfold stringify. rewrite Hs1, Hs2.
    split; [now destruct (σ2 !! r2) | now destruct (σ2 !! r1)].
Qed.

Lemma facade_builders_independent_witness :
  let main := {| selector := "#main"; creationOrder := "id" |} in
  let main' := {| selector := "#main.container"; creationOrder := "idclass" |} in
  let a := {| selector := "a"; creationOrder := "element" |} in
  let σ1 : store := <[1%positive := main]> ∅ in
  let σ2 : store := <[2%positive := a]> (<[1%positive := main']> ∅) in
  facade (RPart Id "main") ∅ = (σ1, Normal 1%positive)
  /\ facade (RPart Element "a") (sent [RPart Class "container"] 1%positive σ1)
     = (σ2, Normal 2%positive)
  /\ 1%positive <> 2%positive
  /\ sent [RPart Class "x"; RPart Id "y"] 2%positive σ2 !! 1%positive
     = σ2 !! 1%positive.
Proof.
  intros main main' a σ1 σ2.
  assert (H1 : facade (RPart Id "main") ∅ = (σ1, Normal 1%positive))
    by (vm_compute; reflexivity).
  assert (H2 : facade (RPart Element "a")
                 (sent [RPart Class "container"] 1%positive σ1)
               = (σ2, Normal 2%positive)) by (vm_compute; reflexivity).
  pose proof (facade_builders_independent ∅ σ1 σ2 _ _ _ _ _ H1 H2)
    as [_ [_ [Hne [_ [_ [_ Hframe]]]]]].
  split; [exact H1 |]. split; [exact H2 |]. split; [exact Hne |].
  exact (proj1 (proj2 (Hframe [RPart Class "x"; RPart Id "y"]))).
Defined.

Lemma combine_records_nothing_witness :
  let a := {| selector := "a"; creationOrder := "element" |} in
  let b := {| selector := "b"; creationOrder := "element" |} in
  let this := {| selector := "#x"; creationOrder := "id" |} in
  let this' := fst (CssSelectorCreator.combine a ">" b this) in
  snd (part Class "c" this') = Normal tt
  /\ selector (fst (part Class "c" this')) = "#xa > b.c"
  /\ snd (part Element "e" this') = snd (part Element "e" this).
Proof.
  intros a b this this'.
  destruct (combine_records_nothing a b this ">") as [_ [_ H]].
  assert (Hc : snd (part Class "c" this') = Normal tt) by reflexivity.
  split; [exact Hc |]. split.
  - exact (proj2 (proj2 (H Class "c")) Hc).
  - exact (proj1 (H Element "e")).
Defined.

(** ** A builder that threw the order error

    Once the recorded kinds are not canonical no part call completes
    normally any more: the order pattern does not match a string that
    goes on from one it does not match. *)
Lemma order_error_is_final (this : CssSelectorCreator) (ks : list kind)
    (k : kind) (value : string) :
  creationOrder this = tags ks ->
  canonical ks = false ->
  snd (part k value this) <> Normal tt.
Proof.
  intros Hco Hks. rewrite part_eq, Hco.
  destruct (single k && test (of_source (tag k)) (tags ks)); [discriminate |].
  rewrite <- tags_snoc, test_validOrderPattern.
  destruct (canonical (ks ++ [k])) eqn:E; [| discriminate].
  apply canonical_from_prefix in E. unfold canonical in Hks. congruence.
Qed.

(** ** The scenarios of the documentation *)

Example scenario_id_class_class :
  snd (and_then
         (build (RPart Id "main") [RPart Class "container"; RPart Class "editable"])
         stringify ∅)
  = Normal "#main.container.editable".
Proof. vm_compute. reflexivity. Qed.

Example scenario_element_attr_pseudoClass :
  snd (and_then
         (build (RPart Element "a")
            [RPart Attr ("href$=" +:+ dquote +:+ ".png" +:+ dquote);
             RPart PseudoClass "focus"])
         stringify ∅)
  = Normal ("a[href$=" +:+ dquote +:+ ".png" +:+ dquote +:+ "]:focus").
Proof. vm_compute. reflexivity. Qed.

Example scenario_id_id :
  snd (build (RPart Id "main") [RPart Id "other"] ∅)
  = ErrorCreator.noDuplicateSelectors.
Proof. vm_compute. reflexivity. Qed.

Example scenario_class_element :
  snd (build (RPart Class "x") [RPart Element "a"] ∅)
  = ErrorCreator.selectorsOrderError.
Proof. vm_compute. reflexivity. Qed.

Example scenario_combine_star :
  snd (and_then (facade (RPart Element "div")) (fun div =>
       and_then (facade (RPart Element "span")) (fun span =>
       facade (RCombine div "*" span))) ∅)
  = ErrorCreator.combinatorError (dquote +:+ " " +:+ dquote +:+ ", +, ~, >").
Proof. vm_compute. reflexivity. Qed.

Example scenario_nested_combine :
  snd (and_then (build (RPart Element "div") [RPart Id "main"]) (fun div =>
       and_then (build (RPart Element "table") [RPart Id "data"]) (fun table =>
       and_then (facade (RPart Element "tr")) (fun tr =>
       and_then (facade (RCombine table "~" tr)) (fun inner =>
       and_then (facade (RCombine div "+" inner)) stringify)))) ∅)
  = Normal "div#main + table#data ~ tr".
Proof. vm_compute. reflexivity. Qed.

(** * Further properties of the builder *)

(** ** The checks, read on the recorded kinds *)

Lemma test_tag_seen (k : kind) (ks : list kind) :
  single k && test (of_source (tag k)) (tags ks) = seen k ks.
Proof.
  rewrite test_tag_tags.
  destruct k; cbn [single andb seen]; try reflexivity;
    induction ks as [|k' ks IH]; simpl; try reflexivity;
    rewrite IH; destruct k'; reflexivity.
Qed.

(** The two patterns of [checkSelectorStructure] decide what a check on
    the recorded kinds decides.  On a builder that recorded the kinds
    [ks], a part call of kind [k] throws the duplicate error and changes
    nothing when [k] may occur once and was recorded, or is element while
    pseudo-element was recorded; otherwise it appends its fragment when
    [ks] followed by [k] is in canonical order, and else records [k] and
    throws the order error. *)
Theorem part_outcome (k : kind) (value : string) (this : CssSelectorCreator)
    (ks : list kind) :
  creationOrder this = tags ks ->
  part k value this
  = if seen k ks then (this, ErrorCreator.noDuplicateSelectors)
    else if canonical (ks ++ [k]) then (appended k value this, Normal tt)
         else (recorded k this, ErrorCreator.selectorsOrderError).
Proof.
  intros Hco. rewrite part_eq, Hco, test_tag_seen.
  now rewrite <- tags_snoc, test_validOrderPattern.
Qed.

Lemma part_outcome_witness :
  creationOrder {| selector := "a::after"; creationOrder := "elementpseudo-element" |}
  = tags [Element; PseudoElement]
  /\ part Class "x" {| selector := "a::after"; creationOrder := "elementpseudo-element" |}
     = ({| selector := "a::after";
           creationOrder := "elementpseudo-elementclass" |},
        ErrorCreator.selectorsOrderError).
Proof.
  split; [reflexivity |].
  apply (part_outcome Class "x"
           {| selector := "a::after"; creationOrder := "elementpseudo-element" |}
           [Element; PseudoElement]).
  reflexivity.
Defined.

(** Once a pseudo-element call completed normally on a builder, every
    later element call on it throws the duplicate error and changes
    nothing, although no element was appended: the pattern made from the
    tag of element finds it inside the tag of pseudo-element. *)
Theorem element_rejected_after_pseudoElement (this this1 : CssSelectorCreator)
    (value value' : string) (cs : list call) :
  part PseudoElement value this = (this1, Normal tt) ->
  part Element value' (after cs this1)
  = (after cs this1, ErrorCreator.noDuplicateSelectors).
Proof.
  intros Hpart. apply part_normal_inv in Hpart. subst this1.
  assert (H : test (of_source (tag Element))
                (creationOrder (after cs (appended PseudoElement value this)))
              = true).
  { apply test_tag_stays. cbn [appended creationOrder tag].
    pose proof (test_unanchored_inside (lit "element") "element"
                  (creationOrder this +:+ "pseudo-") "" eq_refl) as H.
    now rewrite append_assoc in H. }
  rewrite part_eq. cbn [single andb]. now rewrite H.
Qed.

Lemma element_rejected_after_pseudoElement_witness :
  part PseudoElement "after" CssSelectorCreator.constructor
  = ({| selector := "::after"; creationOrder := "pseudo-element" |}, Normal tt)
  /\ part Element "a"
       (after [Combine CssSelectorCreator.constructor "+" CssSelectorCreator.constructor]
          {| selector := "::after"; creationOrder := "pseudo-element" |})
     = ({| selector := "::after + "; creationOrder := "pseudo-element" |},
        ErrorCreator.noDuplicateSelectors).
Proof.
  split; [reflexivity |].
  apply (element_rejected_after_pseudoElement CssSelectorCreator.constructor
           {| selector := "::after"; creationOrder := "pseudo-element" |}
           "after" "a"
           [Combine CssSelectorCreator.constructor "+" CssSelectorCreator.constructor]).
  reflexivity.
Defined.

(** ** After the order error *)

Lemma canonical_app_false (ks ks' : list kind) :
  canonical ks = false -> canonical (ks ++ ks') = false.
Proof.
  intros H. apply not_true_is_false. intros E.
  apply canonical_from_prefix in E. unfold canonical in H. congruence.
Qed.

(** A builder made by the constructor on which a part call threw the
    order error is of no more use for parts: whatever is called on it
    afterwards, no part call completes normally on it again. *)
Theorem order_error_final (cs cs' : list call) (k k' : kind)
    (value value' : string) (this' : CssSelectorCreator) :
  part k value (after cs CssSelectorCreator.constructor)
  = (this', ErrorCreator.selectorsOrderError) ->
  snd (part k' value' (after cs' this')) <> Normal tt.
Proof.
  intros Hpart.
  destruct (after_recorded cs CssSelectorCreator.constructor [] eq_refl)
    as [ks [Hco _]]. simpl in Hco.
  rewrite part_eq, Hco, test_tag_seen, <- tags_snoc, test_validOrderPattern
    in Hpart.
  destruct (seen k ks); [vm_compute in Hpart; discriminate Hpart |].
  destruct (canonical (ks ++ [k])) eqn:Hcan; [discriminate Hpart |].
  injection Hpart as <-.
  destruct (after_recorded cs' (recorded k (after cs CssSelectorCreator.constructor))
              (ks ++ [k])) as [ks' [Hco' _]].
  { cbn [recorded creationOrder]. now rewrite Hco, tags_snoc. }
  apply (order_error_is_final _ _ k' value' Hco').
  now apply canonical_app_false.
Qed.

Lemma order_error_final_witness :
  part Element "a" (after [Part Class "x"] CssSelectorCreator.constructor)
  = ({| selector := ".x"; creationOrder := "classelement" |},
     ErrorCreator.selectorsOrderError)
  /\ snd (part PseudoElement "after"
            (after [Part Attr "href"]
               {| selector := ".x"; creationOrder := "classelement" |}))
     <> Normal tt.
Proof.
  assert (H : part Element "a" (after [Part Class "x"] CssSelectorCreator.constructor)
              = ({| selector := ".x"; creationOrder := "classelement" |},
                 ErrorCreator.selectorsOrderError)) by reflexivity.
  split; [exact H |].
  exact (order_error_final [Part Class "x"] [Part Attr "href"] Element
           PseudoElement "a" "after" _ H).
Defined.

(** ** Whole chains *)

Lemma perform_normal_inv (c : call) (this this' : CssSelectorCreator) :
  perform c this = (this', Normal tt) ->
  selector this' = selector this +:+ render c
  /\ creationOrder this' = creationOrder this +:+ tags (called [c]).
Proof.
  destruct c as [k value | o1 comb o2]; cbn [perform render called tags].
  - intros H. apply part_normal_inv in H. subst this'.
    cbn [appended selector creationOrder]. now rewrite append_nil_r.
  - rewrite combine_eq. destruct (holds_combinator_character comb);
      [| discriminate].
    intros [= <-]. cbn [selector creationOrder]. now rewrite append_nil_r.
Qed.

(** The text of a chain that completes normally, of part and [combine]
    calls in any mix and on any builder, is the text the builder had
    followed by what each call renders, in call order; and the builder
    recorded the kinds of the part calls, in call order, and nothing for
    the [combine] calls. *)
Theorem chain_text (cs : list call) (this this' : CssSelectorCreator) :
  chain cs this = (this', Normal tt) ->
  selector this' = selector this +:+ rendered cs
  /\ creationOrder this' = creationOrder this +:+ tags (called cs).
Proof.
  revert this. induction cs as [|c cs IH]; intros this H.
  - injection H as <-. simpl. now rewrite !append_nil_r.
  - cbn [chain] in H. unfold CssSelectorCreator.bind in H.
    destruct (perform c this) as [this1 [[] | message]] eqn:Hc;
      [| discriminate H].
    apply perform_normal_inv in Hc as [Hs Hco].
    apply IH in H as [Hs' Hco']. rewrite Hs', Hco', Hs, Hco.
    change (c :: cs) with ([c] ++ cs).
    rewrite called_app, tags_app, !append_assoc. now split.
Qed.

Lemma chain_text_witness :
  let div := {| selector := "div#main"; creationOrder := "elementid" |} in
  let tr := {| selector := "tr"; creationOrder := "element" |} in
  let cs := [Part Id "x"; Combine div "~" tr; Part Class "y"] in
  chain cs CssSelectorCreator.constructor
  = ({| selector := "#xdiv#main ~ tr.y"; creationOrder := "idclass" |}, Normal tt)
  /\ selector {| selector := "#xdiv#main ~ tr.y"; creationOrder := "idclass" |}
     = selector CssSelectorCreator.constructor +:+ rendered cs.
Proof.
  intros div tr cs.
  assert (H : chain cs CssSelectorCreator.constructor
              = ({| selector := "#xdiv#main ~ tr.y"; creationOrder := "idclass" |},
                 Normal tt)) by reflexivity.
  split; [exact H |].
  exact (proj1 (chain_text cs _ _ H)).
Defined.

Lemma chain_normal_iff (cs : list call) :
  forall (this : CssSelectorCreator) (ks : list kind),
    creationOrder this = tags ks ->
    canonical ks = true ->
    snd (chain cs this) = Normal tt
    <-> canonical (ks ++ called cs) = true /\ combinators_allowed cs = true.
Proof.
  induction cs as [|[k value | o1 comb o2] cs IH]; intros this ks Hco Hks.
  - simpl. rewrite app_nil_r. now split.
  - cbn [chain perform called combinators_allowed forallb andb].
    unfold CssSelectorCreator.bind.
    change (k :: called cs) with ([k] ++ called cs). rewrite app_assoc.
    rewrite part_eq, Hco, test_tag_seen, <- tags_snoc, test_validOrderPattern.
    destruct (canonical (ks ++ [k])) eqn:Hk.
    + pose proof (canonical_not_recorded ks k Hk) as Hdup.
      rewrite test_tag_seen in Hdup. rewrite Hdup.
      apply IH; [| exact Hk]. cbn [appended creationOrder].
      now rewrite tags_snoc, Hco.
    + rewrite (canonical_app_false _ (called cs) Hk).
      split; [| now intros [E _]].
      destruct (seen k ks); intros H; vm_compute in H; discriminate H.
  - cbn [chain perform called combinators_allowed forallb].
    unfold CssSelectorCreator.bind. rewrite combine_eq.
    destruct (holds_combinator_character comb); cbn [andb].
    + now apply IH.
    + split; [intros H; vm_compute in H; discriminate H | now intros [_ E]].
Qed.

(** ** The language of the order pattern *)

Lemma lang_lit (t : string) : forall s, lang (lit t) s -> s = t.
Proof.
  induction t as [|c t IH]; intros s H.
  - now inversion H.
  - destruct t as [|c' t].
    + now inversion H.
    + cbn [lit] in H. inversion H as [| | | r1 r2 s1 s2 H1 H2 | | | |]; subst.
      inversion H1; subst. apply IH in H2. now subst.
Qed.

Lemma lang_Opt_lit (t s : string) : lang (Opt (lit t)) s -> s = t \/ s = "".
Proof.
  intros H. inversion H as [| | | | r1 r2 s' H1 | r1 r2 s' H1 | |]; subst.
  - left. now apply lang_lit.
  - right. now inversion H1.
Qed.

Lemma lang_Seq_inv (r1 r2 : regex) (s : string) :
  lang (Seq r1 r2) s -> exists s1 s2, s = s1 +:+ s2 /\ lang r1 s1 /\ lang r2 s2.
Proof.
  intros H. inversion H as [| | | ? ? s1 s2 H1 H2 | | | |]; subst.
  now exists s1, s2.
Qed.

Lemma lang_Star_tag (r : regex) (s : string) :
  lang r s ->
  forall k, r = Star (lit (tag k)) -> exists n, s = tags (repeat k n).
Proof.
  induction 1 as [| | | | | | | r0 s1 s2 H1 _ H2 IH2]; intros k E;
    try discriminate E.
  - now exists 0.
  - injection E as ->. apply lang_lit in H1. subst s1.
    destruct (IH2 k eq_refl) as [n ->]. now exists (S n).
Qed.

Lemma optional_tag (k : kind) (s : string) :
  s = tag k \/ s = "" -> exists b, s = tags (optional b k).
Proof.
  intros [-> | ->]; [exists true | exists false]; simpl;
    [now rewrite append_nil_r | reflexivity].
Qed.

Lemma tags_canonical_sequence (e i : bool) (nc na np : nat) (pe : bool) :
  tags (canonical_sequence e i nc na np pe)
  = tags (optional e Element) +:+ tags (optional i Id)
    +:+ tags (repeat Class nc) +:+ tags (repeat Attr na)
    +:+ tags (repeat PseudoClass np) +:+ tags (optional pe PseudoElement).
Proof. unfold canonical_sequence. now rewrite !tags_app. Qed.

(** What the order pattern matches is the tags of a sequence
    [element? id? class* attr* pseudo-class* pseudo-element?]. *)
Lemma validOrderPattern_grammar (s : string) :
  test CssSelectorCreator.validOrderPattern s = true ->
  exists e i nc na np pe, s = tags (canonical_sequence e i nc na np pe).
Proof.
  intros H. apply test_anchored_lang in H.
  apply lang_Seq_inv in H as [se [s1 [-> [He H]]]].
  apply lang_Seq_inv in H as [si [s2 [-> [Hi H]]]].
  apply lang_Seq_inv in H as [sc [s3 [-> [Hc H]]]].
  apply lang_Seq_inv in H as [sa [s4 [-> [Ha H]]]].
  apply lang_Seq_inv in H as [sp [spe [-> [Hp Hpe]]]].
  apply lang_Opt_lit, (optional_tag Element) in He as [e ->].
  apply lang_Opt_lit, (optional_tag Id) in Hi as [i ->].
  apply lang_Opt_lit, (optional_tag PseudoElement) in Hpe as [pe ->].
  destruct (lang_Star_tag _ _ Hc Class eq_refl) as [nc ->].
  destruct (lang_Star_tag _ _ Ha Attr eq_refl) as [na ->].
  destruct (lang_Star_tag _ _ Hp PseudoClass eq_refl) as [np ->].
  exists e, i, nc, na, np, pe. now rewrite tags_canonical_sequence.
Qed.

Lemma canonical_grammar (ks : list kind) :
  canonical ks = true
  <-> exists e i nc na np pe, ks = canonical_sequence e i nc na np pe.
Proof.
  split.
  - intros H. rewrite <- test_validOrderPattern in H.
    apply validOrderPattern_grammar in H as [e [i [nc [na [np [pe H]]]]]].
    apply tags_inj in H. now exists e, i, nc, na, np, pe.
  - intros [e [i [nc [na [np [pe ->]]]]]]. apply canonical_sequence_canonical.
Qed.

(** The order pattern accepts a string, any string, exactly when it is
    the tags, one after the other, of an optional element, an optional id,
    any number of classes, of attributes and of pseudo-classes, and an
    optional pseudo-element, in this order. *)
Theorem validOrderPattern_language (s : string) :
  test CssSelectorCreator.validOrderPattern s = true
  <-> exists (e i : bool) (nc na np : nat) (pe : bool),
        s = tags (canonical_sequence e i nc na np pe).
Proof.
  split; [apply validOrderPattern_grammar |].
  intros [e [i [nc [na [np [pe ->]]]]]].
  rewrite test_validOrderPattern. apply canonical_sequence_canonical.
Qed.

(** A chain of part and [combine] calls on a builder fresh from the
    constructor completes normally exactly when the kinds of its part
    calls, in call order, are an optional element, an optional id, any
    number of classes, of attributes and of pseudo-classes, and an optional
    pseudo-element, and every combinator holds a whitespace character,
    ['+'], ['~'] or ['>']. *)
Theorem chain_completes_iff (cs : list call) :
  snd (chain cs CssSelectorCreator.constructor) = Normal tt
  <-> (exists (e i : bool) (nc na np : nat) (pe : bool),
         called cs = canonical_sequence e i nc na np pe)
      /\ combinators_allowed cs = true.
Proof.
  rewrite (chain_normal_iff cs CssSelectorCreator.constructor [] eq_refl eq_refl).
  simpl. now rewrite canonical_grammar.
Qed.

(** ** The facade and calls through references *)

(** A top-level part call on the facade never throws, whatever the kind,
    the value and the store: it completes with a builder the store did not
    hold, whose text is the fragment of the part and which recorded its
    kind. *)
Theorem facade_part_completes (k : kind) (value : string) (σ : store) :
  let this := fresh (dom σ) in
  (this ∉ dom σ)
  /\ facade (RPart k value) σ
     = (<[this := {| selector := fragment k value; creationOrder := tag k |}]> σ,
        Normal this).
Proof.
  intros this. split; [apply is_fresh |].
  pose proof (facade_forwards (RPart k value) (Part k value) σ eq_refl) as H.
  cbv zeta in H. fold this in H. rewrite H. now destruct k.
Qed.



(** ** Text is only appended *)

Lemma perform_selector (c : call) (this : CssSelectorCreator) :
  selector (fst (perform c this)) = selector this
  \/ selector (fst (perform c this)) = selector this +:+ render c.
Proof.
  destruct c as [k value | o1 comb o2]; cbn [perform render].
  - rewrite part_eq.
    destruct (single k && test (of_source (tag k)) (creationOrder this));
      [now left |].
    destruct (test CssSelectorCreator.validOrderPattern
                (creationOrder this +:+ tag k)); [now right | now left].
  - rewrite combine_eq. destruct (holds_combinator_character comb);
      [now right | now left].
Qed.

(** No call removes or rewrites what a builder holds: after any calls,
    part or [combine], completed or thrown, the text and the recorded tags
    are what they were, followed by what the calls appended. *)
Theorem after_appends_only (cs : list call) (this : CssSelectorCreator) :
  exists text order : string,
    selector (after cs this) = selector this +:+ text
    /\ creationOrder (after cs this) = creationOrder this +:+ order.
Proof.
  revert this. induction cs as [|c cs IH]; intros this.
  - exists "", "". simpl. now rewrite !append_nil_r.
  - rewrite after_cons. destruct (IH (fst (perform c this))) as [u [v [Hu Hv]]].
    rewrite Hu, Hv.
    assert (Hs : exists u', selector (fst (perform c this)) +:+ u
                            = selector this +:+ u').
    { destruct (perform_selector c this) as [-> | ->];
        [now exists u | exists (render c +:+ u); apply append_assoc]. }
    assert (Ho : exists v', creationOrder (fst (perform c this)) +:+ v
                            = creationOrder this +:+ v').
    { destruct (perform_creationOrder c this) as [-> | [k [value [_ ->]]]];
        [now exists v | exists (tag k +:+ v); apply append_assoc]. }
    destruct Hs as [u' ->]. destruct Ho as [v' ->]. now exists u', v'.
Qed.

(** ** The combinators [combine] accepts *)

Lemma holds_combinator_character_spec (s : string) :
  holds_combinator_character s = true
  <-> exists pre a post,
        s = pre +:+ String a post /\ combinator_character a = true.
Proof.
  induction s as [|b s IH]; simpl.
  - split; [discriminate |]. intros [pre [a [post [E _]]]].
    destruct pre; discriminate E.
  - rewrite orb_true_iff, IH. split.
    + intros [H | [pre [a [post [-> H]]]]].
      * now exists "", b, s.
      * now exists (String b pre), a, post.
    + intros [pre [a [post [E H]]]]. destruct pre as [|c pre].
      * simpl in E. injection E as -> ->. now left.
      * simpl in E. injection E as -> ->. right. now exists pre, a, post.
Qed.

(** [combine] completes normally exactly when a whitespace character,
    ['+'], ['~'] or ['>'] stands somewhere in the combinator, whatever
    stands around it; it then appends the two texts with the combinator,
    as given, between two spaces.  For every other combinator it throws the
    combinator error and changes nothing. *)
Theorem combine_outcome (selector1 selector2 this : CssSelectorCreator)
    (combinator : string) :
  (snd (CssSelectorCreator.combine selector1 combinator selector2 this) = Normal tt
   <-> exists pre a post,
         combinator = pre +:+ String a post
         /\ (is_space a = true \/ a = "+"%char \/ a = "~"%char \/ a = ">"%char))
  /\ (CssSelectorCreator.combine selector1 combinator selector2 this
      = ({| selector := selector this +:+ selector selector1 +:+ " "
                        +:+ combinator +:+ " " +:+ selector selector2;
            creationOrder := creationOrder this |}, Normal tt)
      \/ CssSelectorCreator.combine selector1 combinator selector2 this
         = (this, ErrorCreator.combinatorError
                    (dquote +:+ " " +:+ dquote +:+ ", +, ~, >"))).
Proof.
  assert (Hchar : forall a, combinator_character a = true
                  <-> is_space a = true \/ a = "+"%char \/ a = "~"%char
                      \/ a = ">"%char).
  { intros a. unfold combinator_character.
    rewrite !orb_true_iff, !Ascii.eqb_eq. tauto. }
  rewrite combine_eq. split.
  - destruct (holds_combinator_character combinator) eqn:E.
    + split; [intros _ | reflexivity].
      apply holds_combinator_character_spec in E as [pre [a [post [-> H]]]].
      exists pre, a, post. split; [reflexivity | now apply Hchar].
    + split; [intros H; vm_compute in H; discriminate H |].
      intros [pre [a [post [-> H]]]]. apply Hchar in H.
      assert (E' : holds_combinator_character (pre +:+ String a post) = true)
        by (apply holds_combinator_character_spec; now exists pre, a, post).
      congruence.
  - destruct (holds_combinator_character combinator); [now left | now right].
Qed.

(** ** What the record holds *)

Lemma seen_In (k : kind) (ks : list kind) :
  single k = true -> seen k ks = false -> ~ In k ks.
Proof.
  intros Hk Hseen Hin.
  assert (E : seen k ks = true); [| congruence].
  destruct k; try discriminate Hk; cbn [seen]; apply existsb_exists;
    eexists; (split; [exact Hin | reflexivity]).
Qed.

(** Recording a kind that the duplicate check let pass keeps every kind
    that may occur once from occurring twice. *)
Lemma once_snoc (ks : list kind) (k0 : kind) :
  (forall k l1 l2, single k = true -> ks = l1 ++ k :: l2 ->
                   ~ In k l1 /\ ~ In k l2) ->
  seen k0 ks = false ->
  forall k l1 l2, single k = true -> ks ++ [k0] = l1 ++ k :: l2 ->
                  ~ In k l1 /\ ~ In k l2.
Proof.
  intros Hks Hseen k l1 l2 Hk E.
  destruct l2 as [|x l2 _] using rev_ind.
  - apply (app_inj_tail ks l1 k0 k) in E as [-> ->].
    split; [now apply seen_In | intros []].
  - change (l1 ++ k :: l2 ++ [x]) with (l1 ++ (k :: l2) ++ [x]) in E.
    rewrite app_assoc in E. apply app_inj_tail in E as [-> ->].
    destruct (Hks k l1 l2 Hk eq_refl) as [H1 H2]. split; [exact H1 |].
    intros Hin. apply in_app_or in Hin as [Hin | [-> | []]]; [now apply H2 |].
    apply (seen_In k (l1 ++ k :: l2) Hk Hseen).
    apply in_or_app. right. now left.
Qed.

Lemma after_once (cs : list call) :
  forall (this : CssSelectorCreator) (ks : list kind),
    creationOrder this = tags ks ->
    (forall k l1 l2, single k = true -> ks = l1 ++ k :: l2 ->
                     ~ In k l1 /\ ~ In k l2) ->
    exists ks',
      creationOrder (after cs this) = tags ks'
      /\ forall k l1 l2, single k = true -> ks' = l1 ++ k :: l2 ->
                         ~ In k l1 /\ ~ In k l2.
Proof.
  induction cs as [|[k0 value | o1 comb o2] cs IH]; intros this ks Hco Hks.
  - now exists ks.
  - rewrite after_cons. cbn [perform].
    rewrite part_eq, Hco, test_tag_seen, <- tags_snoc, test_validOrderPattern.
    destruct (seen k0 ks) eqn:Hseen; [now apply (IH this ks) |].
    assert (Hco' : creationOrder this +:+ tag k0 = tags (ks ++ [k0]))
      by now rewrite tags_snoc, Hco.
    destruct (canonical (ks ++ [k0]));
      (apply (IH _ (ks ++ [k0])); [exact Hco' | now apply once_snoc]).
  - rewrite after_cons. apply (IH _ ks); [| exact Hks].
    cbn [perform]. rewrite combine_eq.
    now destruct (holds_combinator_character comb).
Qed.

(** Whatever was called on a builder made by the constructor, and however
    the calls ended, its record reads as a sequence of kinds, all of them
    kinds of part calls that were made, in which element, id and
    pseudo-element occur once at most: also a call that throws the order
    error records its kind only after the duplicate check let it pass. *)
Theorem record_holds_single_kinds_once (cs : list call) :
  exists ks : list kind,
    creationOrder (after cs CssSelectorCreator.constructor) = tags ks
    /\ incl ks (called cs)
    /\ forall k l1 l2, single k = true -> ks = l1 ++ k :: l2 ->
                       ~ In k l1 /\ ~ In k l2.
Proof.
  destruct (after_recorded cs CssSelectorCreator.constructor [] eq_refl)
    as [ks [Hco Hincl]]. simpl in Hco.
  destruct (after_once cs CssSelectorCreator.constructor [] eq_refl)
    as [ks' [Hco' Honce]].
  { intros k [|x l1] l2 _ E; discriminate E. }
  rewrite Hco in Hco'. apply tags_inj in Hco'. subst ks'.
  now exists ks.
Qed.

(** ** Top-level calls and the builders there are *)

(** A top-level call on the facade, whether it completes or throws,
    leaves every builder the store held as it was. *)
Theorem facade_keeps_builders (c : request) (σ : store) (other : ref)
    (o : CssSelectorCreator) :
  σ !! other = Some o ->
  fst (facade c σ) !! other = Some o.
Proof.
  intros Ho. rewrite facade_eq. unfold and_then, new.
  assert (Hne : other <> fresh (dom σ)).
  { intros E. apply elem_of_dom_2 in Ho. rewrite E in Ho.
    now apply is_fresh in Ho. }
  change (fst (send c (fresh (dom σ))
                 (<[fresh (dom σ) := CssSelectorCreator.constructor]> σ))
          !! other = Some o).
  rewrite (send_other c (fresh (dom σ)) other _ Hne).
  rewrite lookup_insert_ne by congruence. exact Ho.
Qed.

Lemma facade_keeps_builders_witness :
  let x := {| selector := "#x"; creationOrder := "id" |} in
  let σ : store := <[1%positive := x]> ∅ in
  σ !! 1%positive = Some x
  /\ snd (facade (RCombine 1%positive "*" 1%positive) σ)
     = ErrorCreator.combinatorError (dquote +:+ " " +:+ dquote +:+ ", +, ~, >")
  /\ fst (facade (RCombine 1%positive "*" 1%positive) σ) !! 1%positive = Some x.
Proof.
  intros x σ.
  assert (H : σ !! 1%positive = Some x) by reflexivity.
  split; [exact H |]. split; [vm_compute; reflexivity |].
  exact (facade_keeps_builders (RCombine 1%positive "*" 1%positive) σ _ _ H).
Defined.
